(** * Pulley: a shallow embedding of the simulation core of [js/AppStarter.js]

    The development follows the source file top to bottom: shapes, world
    objects, the collision-pair list, the world stepper, the pulley plant and
    the PID controller.

    Conventions of the embedding.
    - JavaScript numbers are modelled by rationals [Q].  Equality that
      results from an assignment is Leibniz equality; equality that results
      from arithmetic is [Qeq] ([==]).  Where the source produces [NaN]
      (reading a missing property, dividing [0] by [0]) the model says so
      with an [option]: [None] is "not a number".
    - The clock arithmetic of [advanceTime], where the rounding of each
      subtraction decides how many steps are taken, rounds every result to
      binary64 as the engine does (module [Double]).  Elsewhere the
      arithmetic is exact, and the properties stated are those that do not
      turn on the last digit.
    - A method that can throw returns an [outcome]; a method that mutates
      [this] before it throws returns the mutated state next to the outcome.
    - [vec2] values that the source passes by reference and mutates in place
      (query points, object positions) live in a store of cells. *)

From Stdlib Require Import QArith Qabs Qround Qminmax Qpower Lia Lqa ZArith.
From stdpp Require Import gmap strings list fin_maps sorting.

Set Default Proof Using "Type".

(** ** JavaScript outcomes *)

Module JS.

Inductive error : Type :=
| ReferenceError (ident : string)   (* an identifier that is not in scope *)
| TypeError (msg : string)          (* a property read on undefined *)
| AssertionError (msg : string).    (* squishy.assert(false, msg) *)

Inductive outcome (A : Type) : Type :=
| Return (a : A)
| Throw (e : error).
Arguments Return {A} a.
Arguments Throw {A} e.

Definition bind {A B} (m : outcome A) (k : A -> outcome B) : outcome B :=
  match m with
  | Return a => k a
  | Throw e => Throw e
  end.

(** Evaluating an identifier that no [var], parameter or global declares. *)
Definition free_identifier {A} (ident : string) : outcome A :=
  Throw (ReferenceError ident).

(** Modelled from the spec: [squishy.assert] lives in lib/squishy, which is
    missing from src/; section 7 gives it assert-and-abort semantics. *)
Definition assert (cond : bool) (msg : string) : outcome unit :=
  if cond then Return tt else Throw (AssertionError msg).

Definition returns {A} (m : outcome A) : Prop := exists a, m = Return a.

End JS.

#[export] Instance outcome_ret : MRet JS.outcome := @JS.Return.
#[export] Instance outcome_bind : MBind JS.outcome := fun A B k m => JS.bind m k.

(** ** Numbers *)

Module Num.
Open Scope Q_scope.

(** [a < b] and [a > b] as the source's comparisons. *)
Definition ltb (a b : Q) : bool := negb (Qle_bool b a).
Definition gtb (a b : Q) : bool := ltb b a.
Definition leb (a b : Q) : bool := Qle_bool a b.
Definition geb (a b : Q) : bool := Qle_bool b a.

(** [Math.sqrt(d) <= w] for a number [d >= 0], decided without leaving the
    rationals: the real square root of [d] is at most [w] exactly when [w]
    is non-negative and [d <= w * w]. *)
Definition sqrt_leb (d w : Q) : bool := leb 0 w && leb d (w * w).

(** [Math.sqrt(NaN) <= w] is [false]. *)
Definition sqrt_nan_leb (d : option Q) (w : Q) : bool :=
  match d with
  | Some d => sqrt_leb d w
  | None => false
  end.

(** [x || dflt] on numbers: [undefined] and [0] are falsy. *)
Definition or_default (x : option Q) (dflt : Q) : Q :=
  match x with
  | Some v => if Qeq_bool v 0 then dflt else v
  | None => dflt
  end.

End Num.

(** ** Double-precision arithmetic *)

(** The values of IEEE 754 binary64 as rationals, and the rounding that
    every arithmetic operation of the engine applies to its exact result:
    to the nearest number with a 53-bit significand, ties to the even
    significand.  (Results are taken in the normal range, between
    [2^-1022] and [2^1024] in magnitude.) *)
Module Double.
Open Scope Q_scope.

Definition pow2 (e : Z) : Q := 2 ^ e.

(** The binade of a positive number: [2^e <= x < 2^(e+1)]. *)
Definition ilog2 (x : Q) : Z :=
  let e0 := (Z.log2 (Qnum x) - Z.log2 (Zpos (Qden x)))%Z in
  if Qle_bool (pow2 e0) x then e0 else (e0 - 1)%Z.

(** The nearest integer, ties to even. *)
Definition rne (m : Q) : Z :=
  let f := Qfloor m in
  match Qcompare (m - inject_Z f) (1 # 2) with
  | Lt => f
  | Gt => (f + 1)%Z
  | Eq => if Z.even f then f else (f + 1)%Z
  end.

Definition round_pos (x : Q) : Q :=
  let E := (ilog2 x - 52)%Z in
  Qred (inject_Z (rne (x / pow2 E)) * pow2 E).

Definition round (x : Q) : Q :=
  match Qcompare x 0 with
  | Eq => 0
  | Gt => round_pos x
  | Lt => - round_pos (- x)
  end.

(** [a - b] and [a / b] on doubles ([b] is not 0 where [div] is used:
    the divisors are 1000 and [config.dt], which the constructor asserts
    to be positive). *)
Definition sub (a b : Q) : Q := round (a - b).
Definition div (a b : Q) : Q := round (a / b).

(** The relative error of one rounding is at most [2^-53]; beyond [2^52]
    ticks a subtraction of one tick may be lost in the rounding. *)
Definition unitRoundoff : Q := 1 # 9007199254740992.
Definition maxTicks : Q := 4503599627370496.

End Double.

(** ** vec2 *)

Module Vec2.
Open Scope Q_scope.

(** A two-component array [[x, y]]. *)
Definition t : Type := Q * Q.

(** What the source hands to [vec2.squaredDistance]: an array, or (once, in
    [Line.containsPoint]) the object literal [{x: .., y: ..}]. *)
Inductive arg : Type :=
| Arr (v : t)
| XY (x y : Q).

(** [a[i]]: an object literal with keys [x] and [y] has no property [0] or
    [1], so the read gives [undefined]. *)
Definition index (a : arg) (i : nat) : option Q :=
  match a, i with
  | Arr (x, _), 0%nat => Some x
  | Arr (_, y), 1%nat => Some y
  | _, _ => None
  end.

(** Modelled from the spec: js/vec2.js is missing from src/.  The helpers
    are the usual array-based ones; every use in AppStarter.js reads and
    writes components [0] and [1] (section 4.2: "subtracts position from
    the query point").  Arithmetic on [undefined] gives [NaN]. *)
Definition create : t := (0, 0).

Definition subtract (a b : t) : t := (fst a - fst b, snd a - snd b).

Definition squaredDistance (a b : arg) : option Q :=
  match index a 0, index a 1, index b 0, index b 1 with
  | Some a0, Some a1, Some b0, Some b1 =>
      let x := b0 - a0 in
      let y := b1 - a1 in
      Some (x * x + y * y)
  | _, _, _, _ => None
  end.

End Vec2.

(** ** Shapes *)

Module Shapes.
Open Scope Q_scope.
Import JS Vec2.

(** The box that [getBoundingBox] writes into. *)
Record AABB := { min : Vec2.t; max : Vec2.t }.

Record Disk := { center : Vec2.t; radius : Q }.

Record Line := { v1 : Vec2.t; v2 : Vec2.t; width : Q }.

Inductive Shape : Type :=
| ShapeAABB (b : AABB)
| ShapeDisk (d : Disk)
| ShapeLine (l : Line).

(** *** AABB *)

Definition AABB_containsPoint (b : AABB) (point : Vec2.t) : bool :=
  let x := fst point in
  let y := snd point in
  Num.geb x (fst (min b)) && Num.leb x (fst (max b))
  && Num.geb y (snd (min b)) && Num.leb y (snd (max b)).

Definition AABB_getBoundingBox (b : AABB) (aabb : AABB) : outcome AABB :=
  Return {| min := min b; max := max b |}.

(** *** Disk *)

Definition Disk_containsPoint (d : Disk) (point : Vec2.t) : bool :=
  match squaredDistance (Arr (center d)) (Arr point) with
  | Some distSq => Num.leb distSq (radius d * radius d)
  | None => false
  end.

(** The body names [radius], not [this.radius].  No [var radius], parameter
    or global of that name exists, so the right-hand side of the first
    assignment throws before anything is written to [aabb]. *)
Definition Disk_getBoundingBox (d : Disk) (aabb : AABB) : outcome AABB :=
  radius ← free_identifier "radius";
  let aabb := {| min := (fst (center d) - radius, snd (min aabb)); max := max aabb |} in
  let aabb := {| min := (fst (min aabb), snd (center d) - radius); max := max aabb |} in
  let aabb := {| min := min aabb; max := (fst (center d) + radius, snd (max aabb)) |} in
  let aabb := {| min := min aabb; max := (fst (max aabb), snd (center d) + radius) |} in
  Return aabb.

(** What the claim describes: the box padded by the disk's own radius. *)
Definition Disk_boundingBox_spec (d : Disk) : AABB :=
  {| min := (fst (center d) - radius d, snd (center d) - radius d);
     max := (fst (center d) + radius d, snd (center d) + radius d) |}.

(** *** Line *)

(** The nested helper of [Line.containsPoint]; [None] is [NaN]. *)
Definition distToSegmentSquared (p v w : Vec2.t) : option Q :=
  match squaredDistance (Arr v) (Arr w) with
  | None => None
  | Some l2 =>
      if Qeq_bool l2 0 then squaredDistance (Arr p) (Arr v)
      else
        let t := ((fst p - fst v) * (fst w - fst v)
                  + (snd p - snd v) * (snd w - snd v)) / l2 in
        if Num.ltb t 0 then squaredDistance (Arr p) (Arr v)
        else if Num.gtb t 1 then squaredDistance (Arr p) (Arr w)
        else squaredDistance (Arr p)
               (XY (fst v + t * (fst w - fst v)) (snd v + t * (snd w - snd v)))
  end.

Definition Line_containsPoint (l : Line) (point : Vec2.t) : bool :=
  let distSq := distToSegmentSquared point (v1 l) (v2 l) in
  Num.sqrt_nan_leb distSq (width l).

Definition Line_getBoundingBox (l : Line) (aabb : AABB) : outcome AABB :=
  Return {| min := (Qmin (fst (v1 l)) (fst (v2 l)) - width l / 2,
                    Qmin (snd (v1 l)) (snd (v2 l)) - width l / 2);
            max := (Qmax (fst (v1 l)) (fst (v2 l)) + width l / 2,
                    Qmax (snd (v1 l)) (snd (v2 l)) + width l / 2) |}.

(** What the claim describes: the squared distance from [p] to the segment
    with the projection parameter clamped to [0, 1], and the test
    "distance <= width". *)
Definition projection (p v w : Vec2.t) : Q :=
  ((fst p - fst v) * (fst w - fst v) + (snd p - snd v) * (snd w - snd v))
  / ((fst w - fst v) * (fst w - fst v) + (snd w - snd v) * (snd w - snd v)).

Definition clamp01 (t : Q) : Q := Qmax 0 (Qmin 1 t).

Definition segmentDistSq_spec (p v w : Vec2.t) : Q :=
  let t := clamp01 (projection p v w) in
  let cx := fst v + t * (fst w - fst v) in
  let cy := snd v + t * (snd w - snd v) in
  (fst p - cx) * (fst p - cx) + (snd p - cy) * (snd p - cy).

Definition Line_containsPoint_spec (l : Line) (point : Vec2.t) : bool :=
  Num.sqrt_leb (segmentDistSq_spec point (v1 l) (v2 l)) (width l).

(** *** Dispatch on the shape variant *)

Definition containsPoint (s : Shape) (point : Vec2.t) : bool :=
  match s with
  | ShapeAABB b => AABB_containsPoint b point
  | ShapeDisk d => Disk_containsPoint d point
  | ShapeLine l => Line_containsPoint l point
  end.

Definition getBoundingBox (s : Shape) (aabb : AABB) : outcome AABB :=
  match s with
  | ShapeAABB b => AABB_getBoundingBox b aabb
  | ShapeDisk d => Disk_getBoundingBox d aabb
  | ShapeLine l => Line_getBoundingBox l aabb
  end.

(** The line of the area example of section 8 and a point on it. *)
Definition line_3_2 : Line := {| v1 := (0, 0); v2 := (3, 0); width := 2 |}.

End Shapes.

(** ** World objects *)

Module Objects.
Open Scope Q_scope.
Import JS.

(** Modelled from the spec: [squishy.makeFlagEnum] is missing from src/;
    section 3 makes the object type "a bit-flag set {RigidBody, Movable}",
    one bit per name in declaration order. *)
Module ObjectType.
Definition RigidBody : Z := 1.
Definition Movable : Z := 2.
End ObjectType.

(** References to [vec2] arrays: an index into the store of cells. *)
Abbreviation loc := nat (only parsing).
Abbreviation Store := (list Vec2.t) (only parsing).

#[export] Instance Q_inhabited : Inhabited Q := populate 0.

Definition allocated (st : Store) (l : loc) : Prop := (l < length st)%nat.

(** [vec2.create()] returns a new zero vector. *)
Definition alloc (st : Store) : loc * Store := (length st, st ++ [Vec2.create]).

(** The fields that the [Movable] constructor adds. *)
Record MovableFields := {
  velocity : Vec2.t;
  acceleration : Vec2.t;
  lastPosition : Vec2.t;
  onGround : bool;
  lastGroundIteration : Z;
  lastPositionDelta : Vec2.t
}.

Inductive Class : Type :=
| RigidBodyClass
| MovableClass (m : MovableFields).

(** [objectId] is [undefined] until [addObject] assigns one. *)
Record WorldObject := {
  objectId : option N;
  position : loc;
  shape : Shapes.Shape;
  name : option string;
  class : Class
}.

Definition set_objectId (id : option N) (o : WorldObject) : WorldObject :=
  {| objectId := id; position := position o; shape := shape o;
     name := name o; class := class o |}.

Definition getObjectType (o : WorldObject) : Z :=
  match class o with
  | RigidBodyClass => ObjectType.RigidBody
  | MovableClass _ => Z.lor ObjectType.RigidBody ObjectType.Movable
  end.

(** Returns the masked flags, a number used as a truth value. *)
Definition isObjectType (o : WorldObject) (objectType : Z) : Z :=
  Z.land (getObjectType o) objectType.

Definition truthy (z : Z) : bool := negb (z =? 0)%Z.

Definition canMove (o : WorldObject) : bool :=
  match class o with
  | RigidBodyClass => false
  | MovableClass _ => true
  end.

Definition getShape (o : WorldObject) : Shapes.Shape := shape o.

(** [vec2.subtract(worldPoint, worldPoint, this.position)] writes the
    difference into the caller's vector; the shape then tests that same
    vector. *)
Definition containsPoint (o : WorldObject) (worldPoint : loc) (st : Store)
  : bool * Store :=
  let st := <[worldPoint := Vec2.subtract (st !!! worldPoint) (st !!! position o)]> st in
  let localPoint := worldPoint in
  (Shapes.containsPoint (shape o) (st !!! localPoint), st).

(** A shape for the example objects below. *)
Definition unitBox : Shapes.Shape :=
  Shapes.ShapeAABB {| Shapes.min := (0, 0)%Q; Shapes.max := (1, 1)%Q |}.

(** What an object answers for a query point given by value. *)
Definition hitAt (st : Store) (point : Vec2.t) (o : WorldObject) : bool :=
  Shapes.containsPoint (shape o) (Vec2.subtract point (st !!! position o)).

End Objects.

(** ** The collision-pair list *)

Module Collisions.
Import JS Objects.

(** Property keys made from [objectId]; [None] is the key ["undefined"]. *)
Abbreviation key := (option N) (only parsing).

(** Modelled from the spec: the class [CollisionPair] is named by
    [getOrCreatePair] but declared nowhere in src/.  Section 3: a "pair of
    object references plus lastActiveIteration"; section 4.3: [setObjects]
    binds the two objects and [refresh(it)] "records
    lastActiveIteration = currentIteration". *)
Record CollisionPair := {
  obj1 : option WorldObject;
  obj2 : option WorldObject;
  lastActiveIteration : option Z
}.

Definition CollisionPair_new : CollisionPair :=
  {| obj1 := None; obj2 := None; lastActiveIteration := None |}.

Definition setObjects (a b : WorldObject) (p : CollisionPair) : CollisionPair :=
  {| obj1 := Some a; obj2 := Some b; lastActiveIteration := lastActiveIteration p |}.

Definition refresh (it : Z) (p : CollisionPair) : CollisionPair :=
  {| obj1 := obj1 p; obj2 := obj2 p; lastActiveIteration := Some it |}.

Record CollisionList := {
  pairs : gmap key (gmap key CollisionPair);
  pairPool : list CollisionPair;
  currentIteration : Z
}.

Definition CollisionList_new : CollisionList :=
  {| pairs := ∅; pairPool := []; currentIteration := -1 |}.

Definition set_pairs (ps : gmap key (gmap key CollisionPair)) (cl : CollisionList)
  : CollisionList :=
  {| pairs := ps; pairPool := pairPool cl; currentIteration := currentIteration cl |}.

Definition setCurrentIteration (it : Z) (cl : CollisionList) : CollisionList :=
  {| pairs := pairs cl; pairPool := pairPool cl; currentIteration := it |}.

(** [obj1.objectId - obj2.objectId > 0]; with an [undefined] id the
    difference is [NaN] and the comparison is [false]. *)
Definition id_diff_positive (a b : option N) : bool :=
  match a, b with
  | Some a, Some b => (b <? a)%N
  | _, _ => false
  end.

(** Returns [true] if [obj1] comes first. *)
Definition compareObjects (obj1 obj2 : WorldObject) : bool :=
  let isObj1Movable := isObjectType obj1 ObjectType.Movable in
  let isObj2Movable := isObjectType obj2 ObjectType.Movable in
  if (isObj1Movable =? isObj2Movable)%Z then
    id_diff_positive (objectId obj1) (objectId obj2)
  else
    if truthy isObj1Movable then true else false.

(** The pool branch reads the identifier [pairPool], not [this.pairPool].
    The list is mutated ([this.pairs[obj1.objectId] = {}]) before that
    point, so the state is returned next to the outcome. *)
Definition getOrCreatePair (obj1 obj2 : WorldObject) (cl : CollisionList)
  : outcome CollisionPair * CollisionList :=
  (* get or create collision list *)
  let '(obj1CollisionList, cl) :=
    match pairs cl !! objectId obj1 with
    | Some l => (l, cl)
    | None => (∅, set_pairs (<[objectId obj1 := ∅]> (pairs cl)) cl)
    end in
  match obj1CollisionList !! objectId obj2 with
  | Some pair_ =>
      let pair_ := refresh (currentIteration cl) pair_ in
      (Return pair_,
       set_pairs (<[objectId obj1 := <[objectId obj2 := pair_]> obj1CollisionList]> (pairs cl)) cl)
  | None =>
      (* get or create uninitialized pair *)
      let fetched : outcome CollisionPair :=
        if (0 <? length (pairPool cl))%nat then
          let idx := (length (pairPool cl) - 1)%nat in
          pairPool ← free_identifier (A := list CollisionPair) "pairPool";
          match pairPool !! idx with
          | Some pair_ => Return pair_
          | None => Throw (TypeError "pair is undefined")
          end
        else Return CollisionPair_new in
      match fetched with
      | Throw e => (Throw e, cl)
      | Return pair_ =>
          (* place pair in list, store objects in pair, refresh *)
          let pair_ := setObjects obj1 obj2 pair_ in
          let pair_ := refresh (currentIteration cl) pair_ in
          (Return pair_,
           set_pairs (<[objectId obj1 := <[objectId obj2 := pair_]> obj1CollisionList]> (pairs cl)) cl)
      end
  end.

Definition addPair (obj1 obj2 : WorldObject) (cl : CollisionList)
  : outcome CollisionPair * CollisionList :=
  (* in order to identify this pair, we need to establish an order *)
  if negb (compareObjects obj1 obj2) then
    (* swap the order of the two *)
    let tmp := obj2 in
    let obj2 := obj1 in
    let obj1 := obj2 in
    getOrCreatePair obj1 obj2 cl
  else
    getOrCreatePair obj1 obj2 cl.

(** Number of CollisionPair entries held by the nested map. *)
Definition storedPairs (cl : CollisionList) : nat :=
  map_fold (fun _ (l : gmap key CollisionPair) n => (size l + n)%nat) 0%nat (pairs cl).

Definition lookupPair (k1 k2 : key) (cl : CollisionList) : option CollisionPair :=
  pairs cl !! k1 ≫= (.!! k2).

(** The aging protocol of [callForEachPair]: which callback a stored pair
    receives. *)
Inductive PairEvent := OnNewCollision | OnContactGone.

Definition pairEvent (cl : CollisionList) (p : CollisionPair) : option PairEvent :=
  match lastActiveIteration p with
  | Some last =>
      let d := (currentIteration cl - last)%Z in
      if (d =? 0)%Z then Some OnNewCollision
      else if (d =? 1)%Z then Some OnContactGone
      else None
  | None => None
  end.

(** What the claim describes: the canonical order of a pair; [true] when
    [a] is listed first (a Movable before a non-movable; within equal
    movability, ascending objectId). *)
Definition canonical_first_spec (a b : WorldObject) : bool :=
  match canMove a, canMove b with
  | true, false => true
  | false, true => false
  | _, _ => id_diff_positive (objectId b) (objectId a)
  end.

(** Two registered rigid bodies, ids 1 and 2. *)
Definition bodyA : WorldObject :=
  {| objectId := Some 1%N; position := 0%nat; shape := unitBox;
     name := None; class := RigidBodyClass |}.
Definition bodyB : WorldObject :=
  {| objectId := Some 2%N; position := 1%nat; shape := unitBox;
     name := None; class := RigidBodyClass |}.

(** A list whose pool holds one retired pair. *)
Definition listWithPool : CollisionList :=
  {| pairs := ∅; pairPool := [CollisionPair_new]; currentIteration := 7 |}.

(** [for (var id in map)]: integer keys in ascending order, then the key
    ["undefined"]. *)
Definition entry_le {A} (a b : option N * A) : Prop :=
  match a.1, b.1 with
  | Some x, Some y => (x <= y)%N
  | Some _, None => True
  | None, Some _ => False
  | None, None => True
  end.

#[export] Instance entry_le_dec {A} (a b : option N * A) : Decision (entry_le a b).
Proof.
  unfold entry_le. destruct a.1, b.1; try apply _.
Defined.

Definition entriesInOrder {A} (m : gmap (option N) A) : list (option N * A) :=
  merge_sort entry_le (map_to_list m).

(** Every stored pair is visited; the callbacks thread the caller's
    state. *)
Definition callForEachPair {U} (onNewCollision onContactGone : CollisionPair -> U -> U)
    (cl : CollisionList) (u : U) : U :=
  foldl (fun u e1 =>
           let pairList := e1.2 in
           foldl (fun u e2 =>
                    let pair_ := e2.2 in
                    match pairEvent cl pair_ with
                    | Some OnNewCollision => onNewCollision pair_ u
                    | Some OnContactGone => onContactGone pair_ u
                    | None => u
                    end) u (entriesInOrder pairList))
        u (entriesInOrder (pairs cl)).

(** The callbacks that one call fires, latest first. *)
Definition fired (cl : CollisionList) : list (PairEvent * CollisionPair) :=
  callForEachPair (fun p u => (OnNewCollision, p) :: u)
                  (fun p u => (OnContactGone, p) :: u) cl [].

(** A movable body with id 3. *)
Definition bodyM : WorldObject :=
  {| objectId := Some 3%N; position := 2%nat; shape := unitBox;
     name := None;
     class := MovableClass {| velocity := Vec2.create; acceleration := Vec2.create;
                              lastPosition := Vec2.create; onGround := false;
                              lastGroundIteration := 0;
                              lastPositionDelta := Vec2.create |} |}.

End Collisions.

(** ** The world stepper *)

Module World.
Open Scope Q_scope.
Import JS Objects.

(** The recognised options of the configuration object, apart from the
    [stepIntegrate] callback, which is a parameter of the section below. *)
Record Config := { dt : Q; floor : Q; ceiling : Q }.

Record PulleyWorld := {
  lastObjectId : N;
  currentIteration : Z;
  totalTime : Q;
  config : Config;
  objects : gmap N WorldObject;
  movables : gmap N WorldObject;
  collisions : Collisions.CollisionList;
  running : bool;                   (* undefined, hence falsy, until startLoop *)
  lastStepTime : option Q           (* millis; undefined until startLoop *)
}.

Definition set_lastObjectId (n : N) (w : PulleyWorld) : PulleyWorld :=
  {| lastObjectId := n; currentIteration := currentIteration w;
     totalTime := totalTime w; config := config w; objects := objects w;
     movables := movables w; collisions := collisions w;
     running := running w; lastStepTime := lastStepTime w |}.

Definition set_objects (m : gmap N WorldObject) (w : PulleyWorld) : PulleyWorld :=
  {| lastObjectId := lastObjectId w; currentIteration := currentIteration w;
     totalTime := totalTime w; config := config w; objects := m;
     movables := movables w; collisions := collisions w;
     running := running w; lastStepTime := lastStepTime w |}.

Definition set_movables (m : gmap N WorldObject) (w : PulleyWorld) : PulleyWorld :=
  {| lastObjectId := lastObjectId w; currentIteration := currentIteration w;
     totalTime := totalTime w; config := config w; objects := objects w;
     movables := m; collisions := collisions w;
     running := running w; lastStepTime := lastStepTime w |}.

Definition set_running (b : bool) (t : option Q) (w : PulleyWorld) : PulleyWorld :=
  {| lastObjectId := lastObjectId w; currentIteration := currentIteration w;
     totalTime := totalTime w; config := config w; objects := objects w;
     movables := movables w; collisions := collisions w;
     running := b; lastStepTime := t |}.

(** The constructor: [config.dt = config.dt || .06], then the checks. *)
Definition PulleyWorld_new (dt : option Q) (floor ceiling : Q) : outcome PulleyWorld :=
  let dt := Num.or_default dt (6 # 100) in
  _ ← assert (Num.gtb dt 0) "config.dt is invalid";
  mret {| lastObjectId := 0; currentIteration := 1; totalTime := 0;
          config := {| dt := dt; floor := floor; ceiling := ceiling |};
          objects := ∅; movables := ∅;
          collisions := Collisions.CollisionList_new;
          running := false; lastStepTime := None |}.

(** *** Object management *)

(** [obj.objectId || ++this.lastObjectId]: an [undefined] or [0] id is
    falsy and draws the next id from the counter. *)
Definition hasId (obj : WorldObject) : option N :=
  match objectId obj with
  | Some n => if (n =? 0)%N then None else Some n
  | None => None
  end.

(** The object's [objectId] is written, and the counter advanced, before
    the assertion; both survive a failure, so the world and the object
    are returned next to the outcome. *)
Definition addObject (obj : WorldObject) (w : PulleyWorld)
  : outcome unit * (PulleyWorld * WorldObject) :=
  (* assign id to object, if it does not exist yet *)
  let '(id, w) :=
    match hasId obj with
    | Some n => (n, w)
    | None => ((lastObjectId w + 1)%N, set_lastObjectId (lastObjectId w + 1)%N w)
    end in
  let obj := set_objectId (Some id) obj in
  (* make sure, objects cannot be added twice *)
  match assert (negb (bool_decide (is_Some (objects w !! id)))) "Object was added twice" with
  | Throw e => (Throw e, (w, obj))
  | Return _ =>
      (* add object *)
      let w := set_objects (<[id := obj]> (objects w)) w in
      let w := if truthy (isObjectType obj ObjectType.Movable)
               then set_movables (<[id := obj]> (movables w)) w else w in
      (Return tt, (w, obj))
  end.

(** [delete this.objects[obj.objectId]]; deleting the key ["undefined"]
    removes nothing. *)
Definition removeObject (obj : WorldObject) (w : PulleyWorld) : PulleyWorld :=
  match objectId obj with
  | Some id =>
      let w := set_objects (delete id (objects w)) w in
      if truthy (isObjectType obj ObjectType.Movable)
      then set_movables (delete id (movables w)) w else w
  | None => w
  end.

(** *** Object queries *)

(** [for (var objectId in this.objects)]: integer keys in ascending
    order. *)
Definition key_le (a b : N * WorldObject) : Prop := (a.1 <= b.1)%N.

#[export] Instance key_le_dec a b : Decision (key_le a b) := decide (a.1 <= b.1)%N.

Definition objectsInOrder (w : PulleyWorld) : list (N * WorldObject) :=
  merge_sort key_le (map_to_list (objects w)).

Section Query.
Context {U : Type}.

(** The body of the loop for one object; [point] is the scratch vector,
    [_point] the caller's. *)
Definition visit (callback : WorldObject -> U -> U) (_point point : loc)
    (obj : WorldObject) (s : Store * U) : Store * U :=
  let '(st, u) := s in
  let st := <[point := st !!! _point]> st in      (* vec2.copy(point, _point) *)
  let '(hit, st) := containsPoint obj point st in
  (st, if hit then callback obj u else u).

Definition foreachObjectAtPoint (w : PulleyWorld) (_point : loc)
    (callback : WorldObject -> U -> U) (s : Store * U) : Store * U :=
  let '(st, u) := s in
  let '(point, st) := alloc st in                 (* var point = vec2.create() *)
  foldl (fun s kv => visit callback _point point kv.2 s) (st, u) (objectsInOrder w).
End Query.

(** *** World physics simulation *)

Definition isRunning (w : PulleyWorld) : bool := running w.

(** [now] is the reading of [squishy.getCurrentTimeMillisHighRes()]. *)
Definition startLoop (now : Q) (w : PulleyWorld) : PulleyWorld :=
  if running w then w else set_running true (Some now) w.

Definition stopLoop (w : PulleyWorld) : PulleyWorld :=
  if negb (running w) then w else set_running false (lastStepTime w) w.

Definition startStopLoop (now : Q) (w : PulleyWorld) : PulleyWorld :=
  if running w then stopLoop w else startLoop now w.

(** Time since the last step, in seconds; [None] is [NaN].  The clock
    reading, the anchor and the quotient are doubles. *)
Definition getDtSinceLastStep (now : Q) (w : PulleyWorld) : option Q :=
  if negb (isRunning w) then Some 0
  else (fun last => Double.div (Double.sub now last) 1000) <$> lastStepTime w.

Section Stepping.
(** Everything the [stepIntegrate] callback closes over and mutates. *)
Context {Plant : Type}.
Variable stepIntegrate : Q -> Plant -> Plant.

Definition _step (dt : option Q) (s : PulleyWorld * Plant) : PulleyWorld * Plant :=
  let '(w, plant) := s in
  (* update iteration count & compute actual time passed *)
  let dt := Num.or_default dt (World.dt (config w)) in
  let w := {| lastObjectId := lastObjectId w;
              currentIteration := currentIteration w + 1;
              totalTime := totalTime w + dt;
              config := config w; objects := objects w;
              movables := movables w; collisions := collisions w;
              running := running w;
              lastStepTime := (fun t => t + dt * 1000) <$> lastStepTime w |} in
  (* update velocity and position *)
  (w, stepIntegrate dt plant).

Definition stepOnce (s : PulleyWorld * Plant) : PulleyWorld * Plant := _step None s.

(** [while (dt > this.config.dt) { dt -= this.config.dt; this._step(); }]
    with the number of iterations bounded by [fuel]; [None] means the
    bound was reached with the guard still true. *)
Fixpoint advanceTime_loop (fuel : nat) (dt : Q) (s : PulleyWorld * Plant)
  : option (Q * (PulleyWorld * Plant)) :=
  if Num.gtb dt (World.dt (config s.1)) then
    match fuel with
    | O => None
    | S fuel =>
        advanceTime_loop fuel (Double.sub dt (World.dt (config s.1))) (_step None s)
    end
  else Some (dt, s).

(** Returns the ratio of remaining time to frame time ([None] inside is
    [NaN]) and the state after the steps. *)
Definition advanceTime (fuel : nat) (now : Q) (s : PulleyWorld * Plant)
  : option (option Q * (PulleyWorld * Plant)) :=
  match getDtSinceLastStep now s.1 with
  | None => Some (None, s)
  | Some dt =>
      match advanceTime_loop fuel dt s with
      | Some (dt, s') => Some (Some (Double.div dt (World.dt (config s'.1))), s')
      | None => None
      end
  end.

(** [n] discrete steps in a row. *)
Definition steps (n : nat) (s : PulleyWorld * Plant) : PulleyWorld * Plant :=
  Nat.iter n (_step None) s.

End Stepping.

(** The world of the application ([dt: .015], the double nearest to
    0.015), started at clock reading 0. *)
Definition world15 : PulleyWorld :=
  {| lastObjectId := 0; currentIteration := 1; totalTime := 0;
     config := {| dt := Double.round (15 # 1000); floor := 0; ceiling := 5 |};
     objects := ∅; movables := ∅;
     collisions := Collisions.CollisionList_new;
     running := true; lastStepTime := Some 0 |}.

(** A history of registrations and removals. *)
Inductive op : Type :=
| Add (o : WorldObject)
| Remove (o : WorldObject).

Definition applyOp (o : op) (w : PulleyWorld) : PulleyWorld :=
  match o with
  | Add x => (addObject x w).2.1
  | Remove x => removeObject x w
  end.

Definition run (ops : list op) (w : PulleyWorld) : PulleyWorld :=
  foldl (fun w o => applyOp o w) w ops.

(** The id under which [addObject] registers the object: its own, or the
    next value of the counter. *)
Definition idFor (o : WorldObject) (w : PulleyWorld) : N :=
  match hasId o with
  | Some n => n
  | None => (lastObjectId w + 1)%N
  end.

(** An object with no id, and one created with the explicit id 1. *)
Definition anonymous : WorldObject :=
  {| objectId := None; position := 0%nat; shape := unitBox;
     name := None; class := RigidBodyClass |}.
Definition explicit1 : WorldObject := set_objectId (Some 1%N) anonymous.

Definition emptyWorld : PulleyWorld :=
  {| lastObjectId := 0; currentIteration := 1; totalTime := 0;
     config := {| dt := 15 # 1000; floor := 0; ceiling := 5 |};
     objects := ∅; movables := ∅;
     collisions := Collisions.CollisionList_new;
     running := false; lastStepTime := None |}.

(** A store with a query point (3, 4) and a position (1, 1); a movable
    disk at that position, registered in a world. *)
Definition store2 : list Vec2.t := [(3, 4); (1, 1)].

Definition movableDisk : WorldObject :=
  {| objectId := Some 1%N; position := 1%nat;
     shape := Shapes.ShapeDisk {| Shapes.center := (0, 0); Shapes.radius := 5 |};
     name := None;
     class := MovableClass {| velocity := Vec2.create; acceleration := Vec2.create;
                              lastPosition := (1, 1); onGround := false;
                              lastGroundIteration := 0;
                              lastPositionDelta := Vec2.create |} |}.

Definition worldWithDisk : PulleyWorld :=
  (addObject movableDisk emptyWorld).2.1.

(** The two object tables agree: [movables] holds exactly the registered
    objects that can move, and every object is registered under its own
    id. *)
Definition wellFormed (w : PulleyWorld) : Prop :=
  (forall id, movables w !! id
              = objects w !! id ≫= (fun o => if canMove o then Some o else None))
  /\ (forall id o, objects w !! id = Some o -> objectId o = Some id).

(** The object that [removeObject] is given is the registered one, or at
    least of the same kind; or nothing is registered under its id. *)
Definition removable (o : WorldObject) (w : PulleyWorld) : Prop :=
  forall id o', objectId o = Some id -> objects w !! id = Some o' ->
                canMove o' = canMove o.

(** [vec2.fromValues(x, y)]: a new vector with the two components. *)
Definition fromValues (x y : Q) (st : Store) : loc * Store :=
  (length st, st ++ [(x, y)]).

(** The creation helpers: build the definition, construct the RigidBody
    and hand it to [world.addObject]; the object is returned as
    [addObject] left it. *)
Definition AddBox (x y w h : Q) (name : string) (s : PulleyWorld * Store)
  : outcome WorldObject * (PulleyWorld * Store) :=
  let '(world, st) := s in
  let '(position, st) := fromValues x y st in
  let def := {| objectId := None; position := position;
                shape := Shapes.ShapeAABB {| Shapes.min := (0, 0); Shapes.max := (w, h) |};
                name := Some name; class := RigidBodyClass |} in
  let r := addObject def world in
  (_ ← r.1; mret r.2.2, (r.2.1, st)).

Definition AddDisk (x y r : Q) (name : string) (s : PulleyWorld * Store)
  : outcome WorldObject * (PulleyWorld * Store) :=
  let '(world, st) := s in
  let '(position, st) := fromValues x y st in
  let def := {| objectId := None; position := position;
                shape := Shapes.ShapeDisk {| Shapes.center := (0, 0); Shapes.radius := r |};
                name := Some name; class := RigidBodyClass |} in
  let res := addObject def world in
  (_ ← res.1; mret res.2.2, (res.2.1, st)).

(** No registered id is above the counter: the worlds that were built from
    objects without ids of their own. *)
Definition idsBelowCounter (w : PulleyWorld) : Prop :=
  forall id o, objects w !! id = Some o -> (id <= lastObjectId w)%N.

End World.

(** ** The controller-plant interface *)

(** What [PIDControllerClass.update] asks of [this.plant]. *)
Class Plant (P : Type) := {
  getControllerValue : P -> Q;
  setControllerValue : Q -> P -> P
}.

(** ** The pulley plant *)

Module Pulley.
Open Scope Q_scope.

(** The mutable [physics] record.  The per-step diagnostics are
    [undefined] until the first step writes them. *)
Record Diagnostics := {
  totalPayloadMass : Q;
  B : Q;      (* buoyancy *)
  W : Q;      (* weight *)
  F : Q;      (* net force *)
  a : Q;      (* acceleration *)
  D : Q       (* drag + friction *)
}.

Record Physics := {
  isValveOpen : bool;
  isPumpOn : bool;
  ballonetVolume : Q;
  payloadPosition : Q;
  payloadVelocity : Q;
  diagnostics : option Diagnostics
}.

Record DependentGeometry := {
  pulleyBottomLeft : Q;
  pulleyBottomRight : Q;
  ballonetRadius : Q;
  leftStringBottomY : Q;
  rightStringBottomY : Q;
  counterWeightY : Q;
  leftPayloadY : Q;
  ballonetY : Q
}.

(** The fields of the six component objects that [updatePulleyComponents]
    overwrites every step. *)
Record Components := {
  leftString_v2_y : Q;
  rightString_v2_y : Q;
  counterWeight_position_y : Q;
  leftPayload_position_y : Q;
  ballonet_position_y : Q;
  ballonet_radius : Q
}.

Record Pulley := {
  (* geometry and invariable physics *)
  freeStringLength : Q;
  diskRadius : Q;
  diskPosition : Vec2.t;
  payloadSize : Vec2.t;
  payloadMass : Q;
  counterWeightSize : Vec2.t;
  counterWeightMass : Q;
  ballonetPumpInFlow : Q;
  ballonetOutFlow : Q;
  (* physics computation *)
  physics : Physics;
  (* closure state of CreatePulley *)
  dependentGeometry : DependentGeometry;
  components : Components
}.

Definition set_physics (ph : Physics) (p : Pulley) : Pulley :=
  {| freeStringLength := freeStringLength p; diskRadius := diskRadius p;
     diskPosition := diskPosition p; payloadSize := payloadSize p;
     payloadMass := payloadMass p; counterWeightSize := counterWeightSize p;
     counterWeightMass := counterWeightMass p;
     ballonetPumpInFlow := ballonetPumpInFlow p;
     ballonetOutFlow := ballonetOutFlow p;
     physics := ph;
     dependentGeometry := dependentGeometry p; components := components p |}.

Definition set_actuators (pump valve : bool) (ph : Physics) : Physics :=
  {| isValveOpen := valve; isPumpOn := pump;
     ballonetVolume := ballonetVolume ph;
     payloadPosition := payloadPosition ph;
     payloadVelocity := payloadVelocity ph;
     diagnostics := diagnostics ph |}.

(** Static geometry: [pulleyCenter = pulley.diskPosition] and so on. *)
Definition pulleyTop (p : Pulley) : Q := snd (diskPosition p).
Definition pulleyLeft (p : Pulley) : Q := fst (diskPosition p) - diskRadius p.
Definition pulleyRight (p : Pulley) : Q := fst (diskPosition p) + diskRadius p.

Definition getHeightForPayloadPosition (p : Pulley) (pos : Q) : Q :=
  pulleyTop p - freeStringLength p + pos.

(** *** Controller interface *)

Definition pulley_getControllerValue (p : Pulley) : Q := payloadPosition (physics p).

Definition pulley_setControllerValue (u : Q) (p : Pulley) : Pulley :=
  let epsilon := 1 # 10000000 in
  if Num.gtb u epsilon then
    (* need to move up *)
    set_physics (set_actuators false true (physics p)) p
  else if Num.ltb u (- epsilon) then
    (* need to move down *)
    set_physics (set_actuators true false (physics p)) p
  else
    (* do nothing *)
    set_physics (set_actuators false false (physics p)) p.

#[global] Instance pulley_plant : Plant Pulley := {|
  getControllerValue := pulley_getControllerValue;
  setControllerValue := pulley_setControllerValue
|}.

(** The three constants of [stepIntegrate]. *)
Definition g : Q := - (981 # 100).
Definition airDensity : Q := 12 # 10.
Definition frictionConstant : Q := 10.

(** Pump and valve action, then the total mass: the new ballonet volume
    and [payloadMass + ballonetVolume * airDensity]. *)
Definition massAfterActuators (dt : Q) (p : Pulley) : Q * Q :=
  let ph := physics p in
  let volume := ballonetVolume ph in
  let volume := if isPumpOn ph then volume + ballonetPumpInFlow p * dt else volume in
  let volume := if isValveOpen ph
                then Qmax 0 (volume - ballonetOutFlow p * dt) else volume in
  (volume, payloadMass p + volume * airDensity).

Section WithPow.
(** [Math.pow(3/4 * volume / Math.PI, 1/3)], the radius of the sphere that
    holds [volume]; it only feeds the drawing of the ballonet. *)
Variable sphereRadius : Q -> Q.

Definition updateDependentGeometry (p : Pulley) : DependentGeometry :=
  let pulleyBottomLeft := getHeightForPayloadPosition p (payloadPosition (physics p)) in
  let pulleyBottomRight := pulleyTop p - payloadPosition (physics p) in
  let ballonetRadius := sphereRadius (ballonetVolume (physics p)) in
  {| pulleyBottomLeft := pulleyBottomLeft;
     pulleyBottomRight := pulleyBottomRight;
     ballonetRadius := ballonetRadius;
     leftStringBottomY := pulleyBottomLeft - pulleyTop p;
     rightStringBottomY := pulleyBottomRight - pulleyTop p;
     counterWeightY := pulleyBottomRight - snd (counterWeightSize p);
     leftPayloadY := pulleyBottomLeft - snd (payloadSize p);
     ballonetY := pulleyBottomLeft - ballonetRadius - snd (payloadSize p) |}.

Definition updatePulleyComponents (dg : DependentGeometry) : Components :=
  {| leftString_v2_y := leftStringBottomY dg;
     rightString_v2_y := rightStringBottomY dg;
     counterWeight_position_y := counterWeightY dg;
     leftPayload_position_y := leftPayloadY dg;
     ballonet_position_y := ballonetY dg;
     ballonet_radius := ballonetRadius dg |}.

(** The collision tests, in the order of the source. *)
Definition resolveCollisions (p : Pulley) (floor payloadPosition payloadVelocity : Q)
  : Q * Q :=
  let rightStringLength := payloadPosition in
  let leftStringLength := freeStringLength p - payloadPosition in
  let floorHeight := pulleyTop p - floor in
  if Num.gtb rightStringLength floorHeight then
    (* right side bumps against floor *)
    (pulleyTop p, 0)
  else if Num.gtb leftStringLength floorHeight then
    (* left side bumps against floor *)
    (freeStringLength p - floorHeight, 0)
  else if Num.ltb rightStringLength 0 then
    (* right side bumps against pulley wheel *)
    (0, 0)
  else if Num.ltb leftStringLength 0 then
    (* left side bumps against pulley wheel *)
    (freeStringLength p, 0)
  else (payloadPosition, payloadVelocity).

(** One physics step.  [floor] is [world.config.floor].  When the total
    payload mass equals the counter-weight mass the source divides [0] by
    [0]; the [NaN] that then spreads through [physics] has no rational
    value and the step answers [None]. *)
Definition stepIntegrate (floor dt : Q) (p : Pulley) : option Pulley :=
  let ph := physics p in
  let '(ballonetVolume, totalPayloadMass) := massAfterActuators dt p in
  (* compute and sum up forces *)
  let v := payloadVelocity ph in
  let epsilon := 0 in
  let B := totalPayloadMass * g in
  let W := counterWeightMass p * g in
  let F := B - W + epsilon in
  (* compute acceleration *)
  let denominator := Qabs (totalPayloadMass - counterWeightMass p) in
  if Qeq_bool denominator 0 then None
  else
    let a := F / denominator in
    (* semi-implicit Euler integration *)
    let D := - frictionConstant * v in
    let payloadVelocity := v + (a + D) * dt in
    let payloadPosition := payloadPosition ph + payloadVelocity * dt in
    let diag := {| totalPayloadMass := totalPayloadMass;
                   B := B; W := W; F := F; a := a; D := D |} in
    let unclamped := {| isValveOpen := isValveOpen ph; isPumpOn := isPumpOn ph;
                        ballonetVolume := ballonetVolume;
                        payloadPosition := payloadPosition;
                        payloadVelocity := payloadVelocity;
                        diagnostics := Some diag |} in
    (* update geometry: reads the position before the collision tests *)
    let dg := updateDependentGeometry (set_physics unclamped p) in
    (* resolve collisions (non-elastic; kinetic energy dissipates) *)
    let '(position, velocity) :=
      resolveCollisions p floor payloadPosition payloadVelocity in
    let ph := {| isValveOpen := isValveOpen ph; isPumpOn := isPumpOn ph;
                 ballonetVolume := ballonetVolume;
                 payloadPosition := position;
                 payloadVelocity := velocity;
                 diagnostics := Some diag |} in
    Some {| freeStringLength := freeStringLength p; diskRadius := diskRadius p;
            diskPosition := diskPosition p; payloadSize := payloadSize p;
            payloadMass := payloadMass p;
            counterWeightSize := counterWeightSize p;
            counterWeightMass := counterWeightMass p;
            ballonetPumpInFlow := ballonetPumpInFlow p;
            ballonetOutFlow := ballonetOutFlow p;
            physics := ph;
            dependentGeometry := dg;
            components := updatePulleyComponents dg |}.

(** [CreatePulley(top)] with the constants of the source. *)
Definition CreatePulley (top : Q) : Pulley :=
  let diskRadius := 1 # 2 in
  let p0 := {| freeStringLength := 3;
               diskRadius := diskRadius;
               diskPosition := (0, top - (1 # 10) - diskRadius);
               payloadSize := (2 # 10, 1 # 10);
               payloadMass := 49 # 100;
               counterWeightSize := (3 # 10, 2 # 10);
               counterWeightMass := 5 # 10;
               ballonetPumpInFlow := 6 # 1000;
               ballonetOutFlow := 1 # 100;
               physics := {| isValveOpen := false; isPumpOn := true;
                             ballonetVolume := 1 # 100;
                             payloadPosition := 15 # 10;
                             payloadVelocity := 0;
                             diagnostics := None |};
               dependentGeometry :=
                 {| pulleyBottomLeft := 0; pulleyBottomRight := 0;
                    ballonetRadius := 0; leftStringBottomY := 0;
                    rightStringBottomY := 0; counterWeightY := 0;
                    leftPayloadY := 0; ballonetY := 0 |};
               components :=
                 {| leftString_v2_y := 0; rightString_v2_y := 0;
                    counterWeight_position_y := 0; leftPayload_position_y := 0;
                    ballonet_position_y := 0; ballonet_radius := 0 |} |} in
  let dg := updateDependentGeometry p0 in
  {| freeStringLength := freeStringLength p0; diskRadius := Pulley.diskRadius p0;
     diskPosition := diskPosition p0; payloadSize := payloadSize p0;
     payloadMass := payloadMass p0; counterWeightSize := counterWeightSize p0;
     counterWeightMass := counterWeightMass p0;
     ballonetPumpInFlow := ballonetPumpInFlow p0;
     ballonetOutFlow := ballonetOutFlow p0;
     physics := physics p0;
     dependentGeometry := dg;
     components := updatePulleyComponents dg |}.

End WithPow.

(** The velocity and the position that the step computes before the
    collision tests. *)
Definition accelerationOf (dt : Q) (p : Pulley) : Q :=
  let m := snd (massAfterActuators dt p) in
  (m * g - counterWeightMass p * g + 0) / Qabs (m - counterWeightMass p).

Definition unclampedVelocity (dt : Q) (p : Pulley) : Q :=
  let v := payloadVelocity (physics p) in
  v + (accelerationOf dt p + - frictionConstant * v) * dt.

Definition unclampedPosition (dt : Q) (p : Pulley) : Q :=
  payloadPosition (physics p) + unclampedVelocity dt p * dt.

(** The step is defined unless the masses balance exactly. *)
Definition massesDiffer (dt : Q) (p : Pulley) : Prop :=
  ~ snd (massAfterActuators dt p) == counterWeightMass p.

(** The constants that the physics of a step reads. *)
Definition sameConstants (p q : Pulley) : Prop :=
  freeStringLength p = freeStringLength q
  /\ diskPosition p = diskPosition q
  /\ payloadMass p = payloadMass q
  /\ counterWeightMass p = counterWeightMass q
  /\ ballonetPumpInFlow p = ballonetPumpInFlow q
  /\ ballonetOutFlow p = ballonetOutFlow q.

(** The pulley of the application, and the same pulley with the right
    string 1.895 m long and growing at 0.9 m/s. *)
Definition noDrawing : Q -> Q := fun _ => 0.
Definition pulley5 : Pulley := CreatePulley noDrawing 5.
Definition pulley5_descending : Pulley :=
  set_physics {| isValveOpen := isValveOpen (physics pulley5);
                 isPumpOn := isPumpOn (physics pulley5);
                 ballonetVolume := ballonetVolume (physics pulley5);
                 payloadPosition := 1895 # 1000;
                 payloadVelocity := 9 # 10;
                 diagnostics := diagnostics (physics pulley5) |} pulley5.

End Pulley.

(** ** The PID controller *)

Module PID.
Open Scope Q_scope.

Record Physics := {
  errorValue : Q;     (* last error value (distance to setPoint) *)
  Pout : Q;           (* proportional output *)
  Iout : Q;           (* integral output *)
  Dout : Q;           (* derivative output *)
  u : Q               (* total controller output *)
}.

Record PIDController := {
  setPoint : Q;
  isOn : bool;
  kP : Q;
  kI : Q;
  kD : Q;
  physics : Physics
}.

(** The constructor copies the configuration and zeroes the outputs. *)
Definition PIDControllerClass (setPoint : Q) (isOn : bool) (kP kI kD : Q)
  : PIDController :=
  {| setPoint := setPoint; isOn := isOn; kP := kP; kI := kI; kD := kD;
     physics := {| errorValue := 0; Pout := 0; Iout := 0; Dout := 0; u := 0 |} |}.

Definition set_isOn (b : bool) (c : PIDController) : PIDController :=
  {| setPoint := setPoint c; isOn := b; kP := kP c; kI := kI c; kD := kD c;
     physics := physics c |}.

(** [$scope.toggleController]. *)
Definition toggleController (c : PIDController) : PIDController :=
  set_isOn (negb (isOn c)) c.

Section Update.
Context {P : Type} `{Plant P}.

(** Returns [u], or [undefined] ([None]) when the controller is off. *)
Definition update (c : PIDController) (plant : P)
  : option Q * (PIDController * P) :=
  if negb (isOn c) then (None, (c, plant))
  else
    let val := getControllerValue plant in
    let lastErrorValue := errorValue (physics c) in
    let errorValue := setPoint c - val in
    (* proportional *)
    let Pout := kP c * errorValue in
    (* integration *)
    let Iout := Iout (physics c) + kI c * errorValue in
    (* derivative *)
    let Dout := kD c * (errorValue - lastErrorValue) in
    (* compute total *)
    let u := Pout + Iout + Dout in
    let c := {| setPoint := setPoint c; isOn := isOn c;
                kP := kP c; kI := kI c; kD := kD c;
                physics := {| errorValue := errorValue; Pout := Pout;
                              Iout := Iout; Dout := Dout; u := u |} |} in
    (Some u, (c, setControllerValue u plant)).
End Update.

(** Gains and accumulator all zero. *)
Definition zeroGains (c : PIDController) : Prop :=
  kP c == 0 /\ kI c == 0 /\ kD c == 0 /\ Iout (physics c) == 0.

End PID.

(** * Properties *)

(** ** Facts about the comparisons *)

Module NumFacts.
Open Scope Q_scope.
Import Num.

Lemma ltb_lt a b : ltb a b = true <-> a < b.
Proof.
  unfold ltb. rewrite negb_true_iff, <- not_true_iff_false, Qle_bool_iff.
  split; [apply Qnot_le_lt | apply Qlt_not_le].
Qed.

Lemma ltb_ge a b : ltb a b = false <-> b <= a.
Proof. unfold ltb. rewrite negb_false_iff. apply Qle_bool_iff. Qed.

Lemma gtb_gt a b : gtb a b = true <-> b < a.
Proof. apply ltb_lt. Qed.

Lemma gtb_le a b : gtb a b = false <-> a <= b.
Proof. apply ltb_ge. Qed.

Lemma leb_le a b : leb a b = true <-> a <= b.
Proof. apply Qle_bool_iff. Qed.

Lemma leb_gt a b : leb a b = false <-> b < a.
Proof.
  unfold leb. rewrite <- not_true_iff_false, Qle_bool_iff.
  split; [apply Qnot_le_lt | apply Qlt_not_le].
Qed.

Lemma Qeq_bool_false a b : Qeq_bool a b = false <-> ~ a == b.
Proof. rewrite <- not_true_iff_false, Qeq_bool_iff. tauto. Qed.

(** Case analysis on a comparison, with the fact it decides. *)
Lemma gtb_spec a b : {gtb a b = true /\ b < a} + {gtb a b = false /\ a <= b}.
Proof.
  destruct (gtb a b) eqn:E; [left | right]; split; auto.
  - now apply gtb_gt.
  - now apply gtb_le.
Qed.

Lemma ltb_spec a b : {ltb a b = true /\ a < b} + {ltb a b = false /\ b <= a}.
Proof.
  destruct (ltb a b) eqn:E; [left | right]; split; auto.
  - now apply ltb_lt.
  - now apply ltb_ge.
Qed.

End NumFacts.

(** ** Rounding to double precision *)

Module DoubleFacts.
Import Double.
Open Scope Q_scope.

Lemma pow2_pos (e : Z) : 0 < pow2 e.
Proof. apply Qpower_0_lt. reflexivity. Qed.

Lemma pow2_add (a b : Z) : pow2 (a + b) == pow2 a * pow2 b.
Proof. apply Qpower_plus. discriminate. Qed.

Lemma pow2_le (a b : Z) : (a <= b)%Z -> pow2 a <= pow2 b.
Proof. intros H. apply Qpower_le_compat_l; [exact H | discriminate]. Qed.

Lemma pow2_Z (n : Z) : (0 <= n)%Z -> inject_Z (2 ^ n) == pow2 n.
Proof. intros H. apply (Zpower_Qpower 2 n H). Qed.

Lemma pow2_lt_inv (a b : Z) : pow2 a < pow2 b -> (a < b)%Z.
Proof. intros H. apply (Qpower_lt_compat_l_inv 2); [exact H | reflexivity]. Qed.

(** [ilog2 x] is the exponent of the binade of [x]. *)
Lemma ilog2_spec (x : Q) :
  0 < x -> pow2 (ilog2 x) <= x < pow2 (ilog2 x + 1).
Proof.
  intros Hx. destruct x as [p q].
  assert (Hp : (0 < p)%Z).
  { unfold Qlt in Hx. cbn in Hx. lia. }
  unfold ilog2. cbn [Qnum Qden].
  set (lp := Z.log2 p). set (lq := Z.log2 (Z.pos q)).
  destruct (Z.log2_spec p Hp) as [Hp1 Hp2]. fold lp in Hp1, Hp2.
  destruct (Z.log2_spec (Z.pos q) eq_refl) as [Hq1 Hq2]. fold lq in Hq1, Hq2.
  assert (Hlp : (0 <= lp)%Z) by apply Z.log2_nonneg.
  assert (Hlq : (0 <= lq)%Z) by apply Z.log2_nonneg.
  assert (Ex : p # q == inject_Z p / inject_Z (Z.pos q)) by apply Qmake_Qdiv.
  assert (Hqpos : 0 < inject_Z (Z.pos q)) by reflexivity.
  assert (Ip1 : pow2 lp <= inject_Z p).
  { rewrite <- pow2_Z by exact Hlp. rewrite <- Zle_Qle. exact Hp1. }
  assert (Ip2 : inject_Z p < pow2 (lp + 1)).
  { rewrite <- pow2_Z by lia. rewrite <- Zlt_Qlt.
    replace (lp + 1)%Z with (Z.succ lp) by lia. exact Hp2. }
  assert (Iq1 : pow2 lq <= inject_Z (Z.pos q)).
  { rewrite <- pow2_Z by exact Hlq. rewrite <- Zle_Qle. exact Hq1. }
  assert (Iq2 : inject_Z (Z.pos q) < pow2 (lq + 1)).
  { rewrite <- pow2_Z by lia. rewrite <- Zlt_Qlt.
    replace (lq + 1)%Z with (Z.succ lq) by lia. exact Hq2. }
  destruct (Qle_bool (pow2 (lp - lq)) (p # q)) eqn:E.
  - apply Qle_bool_iff in E. split; [exact E | ].
    rewrite Ex. apply Qlt_shift_div_r; [exact Hqpos | ].
    apply Qlt_le_trans with (pow2 (lp + 1)); [exact Ip2 | ].
    replace (lp + 1)%Z with ((lp - lq + 1) + lq)%Z by lia.
    rewrite pow2_add. apply Qmult_le_l; [apply pow2_pos | exact Iq1].
  - assert (E' : p # q < pow2 (lp - lq)).
    { apply Qnot_le_lt. intros H. apply Qle_bool_iff in H. congruence. }
    replace (lp - lq - 1 + 1)%Z with (lp - lq)%Z by lia.
    split; [ | exact E'].
    rewrite Ex. apply Qle_shift_div_l; [exact Hqpos | ].
    apply Qle_trans with (pow2 lp); [ | exact Ip1].
    replace lp with ((lp - lq - 1) + (lq + 1))%Z at 2 by lia.
    rewrite pow2_add. apply Qmult_le_l; [apply pow2_pos | ].
    apply Qlt_le_weak. exact Iq2.
Qed.

Lemma ilog2_unique (x : Q) (e : Z) :
  pow2 e <= x < pow2 (e + 1) -> ilog2 x = e.
Proof.
  intros [H1 H2].
  assert (Hx : 0 < x) by (eapply Qlt_le_trans; [apply pow2_pos | exact H1]).
  destruct (ilog2_spec x Hx) as [G1 G2].
  assert (A : (e < ilog2 x + 1)%Z).
  { apply pow2_lt_inv. eapply Qle_lt_trans; eassumption. }
  assert (B : (ilog2 x < e + 1)%Z).
  { apply pow2_lt_inv. eapply Qle_lt_trans; eassumption. }
  lia.
Qed.

Lemma ilog2_mono (x y : Q) : 0 < x -> x <= y -> (ilog2 x <= ilog2 y)%Z.
Proof.
  intros Hx Hxy.
  assert (Hy : 0 < y) by (eapply Qlt_le_trans; eassumption).
  destruct (ilog2_spec x Hx) as [G1 _]. destruct (ilog2_spec y Hy) as [_ G2].
  assert (A : (ilog2 x < ilog2 y + 1)%Z).
  { apply pow2_lt_inv. eapply Qle_lt_trans; [exact G1 | ].
    eapply Qle_lt_trans; eassumption. }
  lia.
Qed.

Lemma ilog2_proper (x y : Q) : 0 < x -> x == y -> ilog2 x = ilog2 y.
Proof.
  intros Hx E. symmetry. apply ilog2_unique. rewrite <- E. now apply ilog2_spec.
Qed.

(** Rounding to the nearest integer. *)
Lemma rne_cases (m : Q) :
  let f := Qfloor m in
  (rne m = f /\ m - inject_Z f <= 1 # 2)
  \/ (rne m = (f + 1)%Z /\ 1 # 2 <= m - inject_Z f).
Proof.
  intros f. unfold rne. fold f.
  destruct (Qcompare (m - inject_Z f) (1 # 2)) eqn:E.
  - apply Qeq_alt in E. destruct (Z.even f); [left | right]; split;
      try reflexivity; rewrite E; apply Qle_refl.
  - apply Qlt_alt in E. left. split; [reflexivity | now apply Qlt_le_weak].
  - apply Qgt_alt in E. right. split; [reflexivity | now apply Qlt_le_weak].
Qed.

Lemma rne_error (m : Q) : Qabs (inject_Z (rne m) - m) <= 1 # 2.
Proof.
  pose proof (Qfloor_le m) as H1. pose proof (Qlt_floor m) as H2.
  rewrite inject_Z_plus in H2. change (inject_Z 1) with 1 in H2.
  apply Qabs_Qle_condition.
  destruct (rne_cases m) as [[-> H] | [-> H]].
  - split; lra.
  - rewrite inject_Z_plus. change (inject_Z 1) with 1. split; lra.
Qed.

Lemma rne_mono (m m' : Q) : m <= m' -> (rne m <= rne m')%Z.
Proof.
  intros H.
  pose proof (Qfloor_resp_le m m' H) as Hf.
  destruct (Z.eq_dec (Qfloor m) (Qfloor m')) as [E | N].
  - unfold rne. rewrite <- E.
    destruct (Qcompare_spec (m - inject_Z (Qfloor m)) (1 # 2)) as [C | C | C];
      destruct (Qcompare_spec (m' - inject_Z (Qfloor m)) (1 # 2)) as [C' | C' | C'];
      try (destruct (Z.even (Qfloor m))); try lia; exfalso; lra.
  - destruct (rne_cases m) as [[-> _] | [-> _]];
      destruct (rne_cases m') as [[-> _] | [-> _]]; lia.
Qed.

Lemma rne_Z (n : Z) : rne (inject_Z n) = n.
Proof.
  unfold rne. rewrite Qfloor_Z.
  assert (E : inject_Z n - inject_Z n == 0) by ring.
  rewrite E. reflexivity.
Qed.

Lemma rne_proper (m m' : Q) : m == m' -> rne m = rne m'.
Proof.
  intros E. unfold rne. rewrite (Qfloor_comp _ _ E).
  assert (E2 : m - inject_Z (Qfloor m') == m' - inject_Z (Qfloor m'))
    by (rewrite E; reflexivity).
  rewrite (Qcompare_comp _ _ E2 _ _ (Qeq_refl (1 # 2))). reflexivity.
Qed.

(** The scaled significand lies in [2^52, 2^53). *)
Lemma significand_range (x : Q) :
  0 < x ->
  let m := x / pow2 (ilog2 x - 52) in
  inject_Z (2 ^ 52) <= m < inject_Z (2 ^ 53).
Proof.
  intros Hx m. destruct (ilog2_spec x Hx) as [G1 G2].
  pose proof (pow2_pos (ilog2 x - 52)) as HE.
  rewrite !pow2_Z by lia. unfold m. split.
  - apply Qle_shift_div_l; [exact HE | ].
    rewrite <- pow2_add. replace (52 + (ilog2 x - 52))%Z with (ilog2 x) by lia. exact G1.
  - apply Qlt_shift_div_r; [exact HE | ].
    rewrite <- pow2_add. replace (53 + (ilog2 x - 52))%Z with (ilog2 x + 1)%Z by lia.
    exact G2.
Qed.

Lemma round_pos_eq (x : Q) :
  round_pos x == inject_Z (rne (x / pow2 (ilog2 x - 52))) * pow2 (ilog2 x - 52).
Proof. unfold round_pos. apply Qred_correct. Qed.

Lemma round_pos_range (x : Q) :
  0 < x -> pow2 (ilog2 x) <= round_pos x <= pow2 (ilog2 x + 1).
Proof.
  intros Hx. destruct (significand_range x Hx) as [M1 M2].
  pose proof (pow2_pos (ilog2 x - 52)) as HE.
  set (m := x / pow2 (ilog2 x - 52)) in *.
  assert (R1 : (2 ^ 52 <= rne m)%Z).
  { rewrite <- (rne_Z (2 ^ 52)). now apply rne_mono. }
  assert (R2 : (rne m <= 2 ^ 53)%Z).
  { rewrite <- (rne_Z (2 ^ 53)). apply rne_mono. now apply Qlt_le_weak. }
  rewrite round_pos_eq. fold m.
  replace (ilog2 x) with (52 + (ilog2 x - 52))%Z at 1 by lia.
  replace (ilog2 x + 1)%Z with (53 + (ilog2 x - 52))%Z by lia.
  rewrite !pow2_add. rewrite <- !pow2_Z by lia. split.
  - apply Qmult_le_r; [exact HE | ]. rewrite Zle_Qle in R1. exact R1.
  - apply Qmult_le_r; [exact HE | ]. rewrite Zle_Qle in R2. exact R2.
Qed.

Lemma round_pos_pos (x : Q) : 0 < x -> 0 < round_pos x.
Proof.
  intros Hx. eapply Qlt_le_trans; [apply (pow2_pos (ilog2 x)) | ].
  now apply round_pos_range.
Qed.

Lemma round_pos_mono (x y : Q) : 0 < x -> x <= y -> round_pos x <= round_pos y.
Proof.
  intros Hx Hxy.
  assert (Hy : 0 < y) by (eapply Qlt_le_trans; eassumption).
  pose proof (ilog2_mono x y Hx Hxy) as He.
  destruct (Z.eq_dec (ilog2 x) (ilog2 y)) as [E | N].
  - rewrite !round_pos_eq, E.
    pose proof (pow2_pos (ilog2 y - 52)) as HE.
    apply Qmult_le_r; [exact HE | ].
    assert (R : (rne (x / pow2 (ilog2 y - 52)) <= rne (y / pow2 (ilog2 y - 52)))%Z).
    { apply rne_mono. apply Qmult_le_r; [ | exact Hxy]. now apply Qinv_lt_0_compat. }
    rewrite Zle_Qle in R. exact R.
  - eapply Qle_trans; [apply (round_pos_range x Hx) | ].
    eapply Qle_trans; [ | apply (round_pos_range y Hy)].
    apply pow2_le. lia.
Qed.

Lemma round_pos_proper (x y : Q) : 0 < x -> x == y -> round_pos x = round_pos y.
Proof.
  intros Hx E. unfold round_pos. rewrite (ilog2_proper x y Hx E).
  apply Qred_complete. rewrite (rne_proper (x / _) (y / pow2 (ilog2 y - 52))).
  - reflexivity.
  - rewrite E. reflexivity.
Qed.

(** The relative error of a rounding is at most [2^-53]. *)
Lemma round_pos_error (x : Q) :
  0 < x -> Qabs (round_pos x - x) <= x * unitRoundoff.
Proof.
  intros Hx. destruct (ilog2_spec x Hx) as [G1 _].
  pose proof (pow2_pos (ilog2 x - 52)) as HE.
  set (E := (ilog2 x - 52)%Z) in *.
  set (m := x / pow2 E).
  assert (Ex : x == m * pow2 E).
  { unfold m. field. intros H0. rewrite H0 in HE. discriminate HE. }
  pose proof (rne_error m) as Hr.
  assert (Eabs : round_pos x - x == (inject_Z (rne m) - m) * pow2 E).
  { rewrite round_pos_eq. fold E. fold m. clearbody m. rewrite Ex. ring. }
  rewrite Eabs, Qabs_Qmult, (Qabs_pos (pow2 E)) by now apply Qlt_le_weak.
  apply Qle_trans with ((1 # 2) * pow2 E).
  - apply Qmult_le_r; [exact HE | exact Hr].
  - assert (G : pow2 52 * pow2 E <= x).
    { rewrite <- pow2_add. replace (52 + E)%Z with (ilog2 x) by (unfold E; lia). exact G1. }
    rewrite <- pow2_Z in G by lia.
    change (inject_Z (2 ^ 52)) with (4503599627370496 # 1) in G.
    unfold unitRoundoff.
    clearbody E. clear - G HE. set (t := pow2 E) in *. clearbody t. lra.
Qed.

Lemma round_of_pos (x : Q) : 0 < x -> round x = round_pos x.
Proof.
  intros H. unfold round.
  destruct (Qcompare_spec x 0) as [C | C | C]; [exfalso; lra | exfalso; lra | reflexivity].
Qed.

Lemma round_of_neg (x : Q) : x < 0 -> round x = - round_pos (- x).
Proof.
  intros H. unfold round.
  destruct (Qcompare_spec x 0) as [C | C | C]; [exfalso; lra | reflexivity | exfalso; lra].
Qed.

Lemma round_of_zero (x : Q) : x == 0 -> round x = 0.
Proof.
  intros H. unfold round.
  destruct (Qcompare_spec x 0) as [C | C | C]; [reflexivity | exfalso; lra | exfalso; lra].
Qed.

Lemma round_proper (x y : Q) : x == y -> round x = round y.
Proof.
  intros E. destruct (Q_dec x 0) as [[H | H] | H].
  - rewrite (round_of_neg x H), (round_of_neg y) by (rewrite <- E; exact H).
    f_equal. apply round_pos_proper; [lra | now rewrite E].
  - rewrite (round_of_pos x H), (round_of_pos y) by (rewrite <- E; exact H).
    now apply round_pos_proper.
  - rewrite (round_of_zero x H), (round_of_zero y) by (rewrite <- E; exact H).
    reflexivity.
Qed.

Lemma round_sign (x : Q) :
  (0 < x -> 0 < round x) /\ (x < 0 -> round x < 0) /\ (x == 0 -> round x == 0).
Proof.
  split; [ | split]; intros H.
  - rewrite (round_of_pos x H). now apply round_pos_pos.
  - rewrite (round_of_neg x H).
    assert (0 < round_pos (- x)) by (apply round_pos_pos; lra). lra.
  - rewrite (round_of_zero x H). reflexivity.
Qed.

Lemma round_mono (x y : Q) : x <= y -> round x <= round y.
Proof.
  intros Hxy. destruct (Q_dec x 0) as [[Hx | Hx] | Hx].
  - rewrite (round_of_neg x Hx).
    destruct (Q_dec y 0) as [[Hy | Hy] | Hy].
    + rewrite (round_of_neg y Hy).
      assert (round_pos (- y) <= round_pos (- x)) by (apply round_pos_mono; lra).
      lra.
    + pose proof (proj1 (round_sign y) Hy).
      assert (0 < round_pos (- x)) by (apply round_pos_pos; lra). lra.
    + rewrite (round_of_zero y Hy).
      assert (0 < round_pos (- x)) by (apply round_pos_pos; lra). lra.
  - assert (Hy : 0 < y) by lra.
    rewrite (round_of_pos x Hx), (round_of_pos y Hy). now apply round_pos_mono.
  - rewrite (round_of_zero x Hx).
    destruct (Q_dec y 0) as [[Hy | Hy] | Hy].
    + exfalso. lra.
    + pose proof (proj1 (round_sign y) Hy). lra.
    + rewrite (round_of_zero y Hy). apply Qle_refl.
Qed.

Lemma round_error (x : Q) : 0 <= x -> Qabs (round x - x) <= x * unitRoundoff.
Proof.
  intros H. destruct (Qle_lt_or_eq _ _ H) as [Hx | Hx].
  - rewrite (round_of_pos x Hx). now apply round_pos_error.
  - rewrite (round_of_zero x) by (symmetry; exact Hx).
    rewrite <- Hx. discriminate.
Qed.

End DoubleFacts.

(** ** Shapes *)

Module ShapesFacts.
Open Scope Q_scope.
Import JS Vec2 Shapes NumFacts.

(** A squared distance to an object literal [{x, y}] is [NaN]. *)
Lemma squaredDistance_XY a x y : squaredDistance a (XY x y) = None.
Proof. unfold squaredDistance. destruct a as [[a0 a1]|]; reflexivity. Qed.

Lemma squaredDistance_Arr a b :
  squaredDistance (Arr a) (Arr b)
  = Some ((fst b - fst a) * (fst b - fst a) + (snd b - snd a) * (snd b - snd a)).
Proof. destruct a, b; reflexivity. Qed.

(** Whenever the projection of the point falls on the segment (the
    segment is not degenerate and [0 <= t <= 1]), the helper measures the
    distance to an object literal, and [containsPoint] answers [false]
    whatever the width. *)
Lemma Line_containsPoint_interior (l : Line) (p : Vec2.t) :
  ~ (fst (v2 l) - fst (v1 l)) * (fst (v2 l) - fst (v1 l))
    + (snd (v2 l) - snd (v1 l)) * (snd (v2 l) - snd (v1 l)) == 0 ->
  0 <= projection p (v1 l) (v2 l) <= 1 ->
  Line_containsPoint l p = false.
Proof.
  intros Hl2 [Ht0 Ht1].
  unfold Line_containsPoint, distToSegmentSquared.
  rewrite squaredDistance_Arr.
  apply Qeq_bool_false in Hl2. rewrite Hl2.
  fold (projection p (v1 l) (v2 l)).
  apply ltb_ge in Ht0. rewrite Ht0.
  apply gtb_le in Ht1. rewrite Ht1.
  now rewrite squaredDistance_XY.
Qed.

(** C5 (the code departs from the claim): for the line from (0,0) to (3,0)
    of width 2 and the point (1,0), which lies on the segment, the clamped
    point-to-segment distance is 0 <= 2, so the claim makes
    [containsPoint] true; the code returns [false], because the projected
    point is passed to [vec2.squaredDistance] as [{x, y}] and the distance
    is [NaN]. *)
Theorem Line_containsPoint_on_segment :
  projection (1, 0) (v1 line_3_2) (v2 line_3_2) == 1 # 3
  /\ distToSegmentSquared (1, 0) (v1 line_3_2) (v2 line_3_2) = None
  /\ Line_containsPoint line_3_2 (1, 0) = false
  /\ segmentDistSq_spec (1, 0) (v1 line_3_2) (v2 line_3_2) == 0
  /\ Line_containsPoint_spec line_3_2 (1, 0) = true.
Proof. repeat split; vm_compute; reflexivity. Qed.

(** C8 (the code departs from the claim): for every disk and every box,
    [getBoundingBox] throws a ReferenceError on the identifier [radius]
    and returns no box; in particular it does not produce the box padded
    by the disk's radius that the claim describes. *)
Theorem Disk_getBoundingBox_throws (d : Disk) (aabb : AABB) :
  Disk_getBoundingBox d aabb = Throw (ReferenceError "radius")
  /\ ~ returns (Disk_getBoundingBox d aabb)
  /\ Disk_getBoundingBox d aabb <> Return (Disk_boundingBox_spec d).
Proof.
  assert (E : Disk_getBoundingBox d aabb = Throw (ReferenceError "radius"))
    by reflexivity.
  split; [exact E | split].
  - intros [b Hb]. rewrite E in Hb. discriminate Hb.
  - rewrite E. discriminate.
Qed.

(** The sibling method does what the claim asks of the disk: the line's
    box pads by [this.width / 2]. *)
Lemma Line_getBoundingBox_pads (l : Line) (aabb : AABB) :
  exists b, Line_getBoundingBox l aabb = Return b
    /\ fst (min b) = Qmin (fst (v1 l)) (fst (v2 l)) - width l / 2
    /\ snd (max b) = Qmax (snd (v1 l)) (snd (v2 l)) + width l / 2.
Proof. eexists. split; [reflexivity | split; reflexivity]. Qed.

End ShapesFacts.

(** ** The collision-pair list *)

Module CollisionsFacts.
Import JS Objects Collisions.

(** After the swap both variables hold the first argument: the pair is
    looked up under [obj1] and either [obj2] or [obj1] again. *)
Lemma addPair_unfold (o1 o2 : WorldObject) (cl : CollisionList) :
  addPair o1 o2 cl
  = getOrCreatePair o1 (if compareObjects o1 o2 then o2 else o1) cl.
Proof. unfold addPair. destruct (compareObjects o1 o2); reflexivity. Qed.

(** With an empty pool and no entry for the first id, a new pair is
    stored under the two ids. *)
Lemma getOrCreatePair_fresh (o1 o2 : WorldObject) (cl : CollisionList) :
  pairPool cl = [] ->
  pairs cl !! objectId o1 = None ->
  let p := refresh (currentIteration cl) (setObjects o1 o2 CollisionPair_new) in
  getOrCreatePair o1 o2 cl
  = (Return p, set_pairs (<[objectId o1 := {[objectId o2 := p]}]> (pairs cl)) cl).
Proof.
  intros Hpool Hnone. unfold getOrCreatePair. rewrite Hnone. simpl.
  rewrite lookup_empty, Hpool. simpl.
  rewrite insert_insert_eq. reflexivity.
Qed.

Lemma storedPairs_two (k1 k2 : key) (m1 m2 : gmap key CollisionPair)
    (pool : list CollisionPair) (it : Z) :
  k1 <> k2 ->
  storedPairs {| pairs := <[k2 := m2]> {[k1 := m1]}; pairPool := pool;
                 currentIteration := it |}
  = (size m2 + size m1)%nat.
Proof.
  intros Hne. unfold storedPairs. simpl.
  rewrite map_fold_insert_L.
  - rewrite <- insert_empty, map_fold_insert_L.
    + rewrite map_fold_empty. lia.
    + intros. lia.
    + apply lookup_empty.
  - intros. lia.
  - rewrite lookup_singleton_ne; [reflexivity | exact Hne].
Qed.

(** Within equal movability [compareObjects] puts the object with the
    larger id first, where the canonical order of section 4.3 is ascending. *)
Lemma compareObjects_larger_id_first (o1 o2 : WorldObject) (a b : N) :
  canMove o1 = canMove o2 ->
  objectId o1 = Some a -> objectId o2 = Some b ->
  compareObjects o1 o2 = (b <? a)%N
  /\ canonical_first_spec o1 o2 = (a <? b)%N.
Proof.
  intros Hmove Ha Hb.
  unfold compareObjects, canonical_first_spec, isObjectType, getObjectType, canMove in *.
  rewrite Ha, Hb.
  destruct (class o1), (class o2); try discriminate Hmove; cbn; split; reflexivity.
Qed.

(** C4 (the code departs from the claim): for every two objects with
    distinct ids, [addPair(A, B)] followed by [addPair(B, A)] on a new
    list stores two CollisionPairs, not one: the first is looked up under
    A's id and the second under B's id, because the swap leaves both
    variables equal to the first argument. *)
Theorem addPair_both_orders (A B : WorldObject) (a b : N) :
  objectId A = Some a ->
  objectId B = Some b ->
  a <> b ->
  let r1 := addPair A B CollisionList_new in
  let r2 := addPair B A r1.2 in
  storedPairs r2.2 = 2%nat
  /\ (exists p k, r1.1 = Return p /\ lookupPair (Some a) k r2.2 = Some p)
  /\ (exists q k, r2.1 = Return q /\ lookupPair (Some b) k r2.2 = Some q)
  /\ r1.1 <> r2.1.
Proof.
  intros Ha Hb Hne r1 r2. subst r1 r2.
  rewrite (addPair_unfold A B).
  set (A2 := if compareObjects A B then B else A).
  rewrite (getOrCreatePair_fresh A A2) by reflexivity.
  cbn [fst snd].
  rewrite addPair_unfold.
  set (B2 := if compareObjects B A then A else B).
  rewrite (getOrCreatePair_fresh B B2);
    [ | reflexivity
      | cbn; rewrite Ha, Hb, insert_empty, lookup_singleton_ne;
        [reflexivity | congruence] ].
  cbn [fst snd]. unfold set_pairs. cbn [pairs pairPool currentIteration CollisionList_new].
  rewrite insert_empty.
  split; [ | split; [ | split ] ].
  - rewrite storedPairs_two by congruence.
    rewrite !map_size_singleton. reflexivity.
  - eexists. exists (objectId A2). split; [reflexivity | ].
    unfold lookupPair. cbn [pairs].
    rewrite lookup_insert_ne by congruence.
    rewrite <- Ha, lookup_singleton_eq. cbn.
    apply lookup_singleton_eq.
  - eexists. exists (objectId B2). split; [reflexivity | ].
    unfold lookupPair. cbn [pairs].
    rewrite <- Hb, lookup_insert_eq. cbn.
    apply lookup_singleton_eq.
  - intros E. unfold refresh, setObjects in E. cbn in E.
    assert (HAB : A = B) by congruence.
    rewrite HAB in Ha. congruence.
Qed.

Lemma addPair_both_orders_witness :
  storedPairs (addPair bodyB bodyA (addPair bodyA bodyB CollisionList_new).2).2 = 2%nat.
Proof.
  refine (proj1 (addPair_both_orders bodyA bodyB 1%N 2%N _ _ _));
    [reflexivity | reflexivity | discriminate].
Defined.

(** What the two calls do on the bodies with ids 1 and 2: the first
    stores a pair that holds body 1 twice, the second a pair of body 2
    and body 1. *)
Lemma addPair_both_orders_example :
  (addPair bodyA bodyB CollisionList_new).1
    = Return (refresh (-1) (setObjects bodyA bodyA CollisionPair_new))
  /\ (addPair bodyB bodyA (addPair bodyA bodyB CollisionList_new).2).1
    = Return (refresh (-1) (setObjects bodyB bodyA CollisionPair_new)).
Proof. split; vm_compute; reflexivity. Qed.

(** C7 (the code departs from the claim): whenever the pair is absent and
    the pool is not empty, [getOrCreatePair] throws a ReferenceError on the
    identifier [pairPool]: no pair is returned, none is popped from the
    pool and none is stored for the two objects. *)
Theorem getOrCreatePair_pool_throws (o1 o2 : WorldObject) (cl : CollisionList) :
  pairPool cl <> [] ->
  lookupPair (objectId o1) (objectId o2) cl = None ->
  let r := getOrCreatePair o1 o2 cl in
  r.1 = Throw (ReferenceError "pairPool")
  /\ ~ returns r.1
  /\ pairPool r.2 = pairPool cl
  /\ lookupPair (objectId o1) (objectId o2) r.2 = None.
Proof.
  intros Hpool Habsent r.
  assert (Hlen : (0 <? length (pairPool cl))%nat = true).
  { destruct (pairPool cl); [congruence | reflexivity]. }
  assert (E : r = (Throw (ReferenceError "pairPool"),
                   match pairs cl !! objectId o1 with
                   | Some _ => cl
                   | None => set_pairs (<[objectId o1 := ∅]> (pairs cl)) cl
                   end)).
  { subst r. unfold getOrCreatePair, lookupPair in *.
    destruct (pairs cl !! objectId o1) as [l|] eqn:E1.
    - cbn in Habsent. rewrite Habsent, Hlen. reflexivity.
    - cbn [set_pairs pairPool pairs currentIteration].
      rewrite lookup_empty, Hlen. reflexivity. }
  rewrite E. cbn [fst snd].
  split; [reflexivity | split; [ | split ] ].
  - intros [x Hx]. discriminate Hx.
  - destruct (pairs cl !! objectId o1); reflexivity.
  - unfold lookupPair in *.
    destruct (pairs cl !! objectId o1) as [l|] eqn:E1.
    + rewrite E1. exact Habsent.
    + cbn [set_pairs pairs]. rewrite lookup_insert_eq. cbn. apply lookup_empty.
Qed.

Lemma getOrCreatePair_pool_throws_witness :
  (getOrCreatePair bodyA bodyB listWithPool).1 = Throw (ReferenceError "pairPool").
Proof.
  refine (proj1 (getOrCreatePair_pool_throws bodyA bodyB listWithPool _ _));
    [discriminate | reflexivity].
Defined.

(** With an empty pool the same call constructs a pair and returns it. *)
Lemma getOrCreatePair_empty_pool_returns (o1 o2 : WorldObject) (cl : CollisionList) :
  pairPool cl = [] -> returns (getOrCreatePair o1 o2 cl).1.
Proof.
  intros Hpool. unfold getOrCreatePair.
  destruct (pairs cl !! objectId o1) as [l|]; cbn.
  - destruct (l !! objectId o2); rewrite ?Hpool; cbn; eexists; reflexivity.
  - rewrite lookup_empty, Hpool. cbn. eexists; reflexivity.
Qed.

End CollisionsFacts.

(** ** The world stepper: stepping *)

Module SteppingFacts.
Open Scope Q_scope.
Import World NumFacts DoubleFacts.

Section WithCallback.
Context {Plant : Type}.
Variable stepIntegrate : Q -> Plant -> Plant.

#[local] Abbreviation _step := (World._step stepIntegrate).
#[local] Abbreviation steps := (World.steps stepIntegrate).
#[local] Abbreviation advanceTime_loop := (World.advanceTime_loop stepIntegrate).
#[local] Abbreviation advanceTime := (World.advanceTime stepIntegrate).

Lemma step_config dt (s : PulleyWorld * Plant) : config (_step dt s).1 = config s.1.
Proof. destruct s. reflexivity. Qed.

Lemma steps_config n (s : PulleyWorld * Plant) : config (steps n s).1 = config s.1.
Proof.
  induction n as [|n IH]; [reflexivity | ].
  unfold World.steps in *. rewrite Nat.iter_succ. now rewrite step_config.
Qed.

Lemma steps_succ_r n (s : PulleyWorld * Plant) :
  steps (S n) s = steps n (_step None s).
Proof. unfold World.steps. now rewrite Nat.iter_succ_r. Qed.

(** [n] steps add [n] to the iteration counter, [n * dt] to the total
    time, and leave the run state alone. *)
Lemma steps_counters n (s : PulleyWorld * Plant) :
  currentIteration (steps n s).1 = (currentIteration s.1 + Z.of_nat n)%Z
  /\ totalTime (steps n s).1 == totalTime s.1 + inject_Z (Z.of_nat n) * dt (config s.1)
  /\ running (steps n s).1 = running s.1.
Proof.
  induction n as [|n (IHi & IHt & IHr)].
  - cbn. split; [lia | split; [ | reflexivity] ].
    unfold inject_Z. ring.
  - unfold World.steps in *. rewrite Nat.iter_succ.
    destruct (Nat.iter n _ s) as [w' p'] eqn:E. cbn [fst snd] in *.
    pose proof (steps_config n s) as Hc. unfold World.steps in Hc.
    rewrite E in Hc. cbn [fst] in Hc.
    cbn [World._step fst currentIteration totalTime running Num.or_default].
    split; [ | split ].
    + rewrite IHi. lia.
    + rewrite IHt, Hc, Nat2Z.inj_succ. unfold Z.succ.
      rewrite inject_Z_plus. ring.
    + exact IHr.
Qed.

(** The guard is false at once when the elapsed time is at most one
    tick: no step. *)
Lemma advanceTime_loop_exit fuel e (s : PulleyWorld * Plant) :
  e <= dt (config s.1) -> advanceTime_loop fuel e s = Some (e, s).
Proof.
  intros He. apply gtb_le in He.
  destruct fuel; cbn [World.advanceTime_loop]; now rewrite He.
Qed.

(** One trip through the loop.  Below [2^52] ticks the rounded
    subtraction takes at least half a tick off the remaining time, leaves
    it positive, and misses the exact difference by at most one rounding
    error. *)
Lemma tick_subtracted (c x : Q) :
  0 < c -> c < x -> x <= Double.maxTicks * c ->
  0 < Double.sub x c
  /\ Double.sub x c <= x - c * (1 # 2)
  /\ Qabs (Double.sub x c - (x - c)) <= x * Double.unitRoundoff.
Proof.
  intros Hc Hx Hmax. unfold Double.sub.
  assert (Hy : 0 < x - c) by lra.
  pose proof (proj1 (round_sign (x - c)) Hy) as Hpos.
  pose proof (round_error (x - c) (Qlt_le_weak _ _ Hy)) as Herr.
  pose proof Herr as Herr'. apply Qabs_Qle_condition in Herr'.
  unfold Double.maxTicks in Hmax. unfold Double.unitRoundoff in *.
  set (r := Double.round (x - c)) in *. clearbody r.
  split; [exact Hpos | split; [lra | ] ].
  eapply Qle_trans; [exact Herr | ]. lra.
Qed.

Lemma Z_of_nat_nonneg (n : nat) : 0 <= inject_Z (Z.of_nat n).
Proof. change 0 with (inject_Z 0). rewrite <- Zle_Qle. lia. Qed.

Lemma inject_Z_succ (n : nat) : inject_Z (Z.of_nat (S n)) == inject_Z (Z.of_nat n) + 1.
Proof. rewrite Nat2Z.inj_succ. unfold Z.succ. rewrite inject_Z_plus. reflexivity. Qed.

(** The loop returns.  With a remaining time [x] of at most [2^52] ticks
    and at most [1 + k / 2] ticks, the loop takes some [n <= k] steps and
    leaves a remainder in [[0, dt]]; [n] ticks and the remainder add up to
    [x] but for the [n] rounding errors. *)
Lemma advanceTime_loop_run (c : Q) :
  0 < c ->
  forall (k : nat) (x : Q) (s : PulleyWorld * Plant),
    dt (config s.1) = c ->
    0 <= x ->
    x <= Double.maxTicks * c ->
    x <= c + inject_Z (Z.of_nat k) * (c * (1 # 2)) ->
    exists (n : nat) (rem : Q),
      (n <= k)%nat
      /\ (forall fuel, (n <= fuel)%nat ->
            advanceTime_loop fuel x s = Some (rem, steps n s))
      /\ 0 <= rem <= c
      /\ (0 < x -> 0 < rem)
      /\ (n = 0%nat <-> x <= c)
      /\ (n = 0%nat -> rem = x)
      /\ Qabs (x - (inject_Z (Z.of_nat n) * c + rem))
         <= inject_Z (Z.of_nat n) * x * Double.unitRoundoff.
Proof.
  intros Hc. induction k as [|k IH]; intros x s Hcfg Hx0 Hmax Hk.
  all: destruct (Qlt_le_dec c x) as [Hgt | Hle].
  - exfalso. change (inject_Z (Z.of_nat 0)) with 0 in Hk. lra.
  - exists 0%nat, x. split; [lia | split; [ | split; [lra | split; [tauto | split;
      [tauto | split; [reflexivity | ] ] ] ] ] ].
    + intros fuel _. change (advanceTime_loop fuel x s = Some (x, s)).
      apply advanceTime_loop_exit. now rewrite Hcfg.
    + change (inject_Z (Z.of_nat 0)) with 0.
      apply Qabs_Qle_condition. unfold Double.unitRoundoff. split; lra.
  - destruct (tick_subtracted c x Hc Hgt Hmax) as (Hpos & Hhalf & Herr).
    set (x1 := Double.sub x c) in *.
    pose proof (inject_Z_succ k) as Hsk. pose proof (Z_of_nat_nonneg k) as Hk0.
    destruct (IH x1 (_step None s)) as (n & rem & Hn & Hrun & Hrem & Hp & _ & _ & Hacc).
    { now rewrite step_config. }
    { lra. }
    { unfold Double.maxTicks in *. lra. }
    { rewrite Hsk in Hk. lra. }
    exists (S n), rem.
    split; [lia | split; [ | split; [exact Hrem | split; [ | split; [ | split ] ] ] ] ].
    + intros [|fuel] Hfuel; [lia | ].
      cbn [World.advanceTime_loop]. rewrite Hcfg.
      apply gtb_gt in Hgt. rewrite Hgt. fold x1.
      rewrite steps_succ_r. apply Hrun. lia.
    + intros _. apply Hp. exact Hpos.
    + split; [discriminate | intros; exfalso; lra].
    + discriminate.
    + pose proof (inject_Z_succ n) as Hsn. pose proof (Z_of_nat_nonneg n) as Hn0.
      apply Qabs_Qle_condition in Hacc. apply Qabs_Qle_condition in Herr.
      apply Qabs_Qle_condition. rewrite Hsn.
      unfold Double.unitRoundoff in *.
      set (N := inject_Z (Z.of_nat n)) in *. clearbody N x1.
      assert (N * x1 <= N * x) by nra.
      split; nra.
  - exists 0%nat, x. split; [lia | split; [ | split; [lra | split; [tauto | split;
      [tauto | split; [reflexivity | ] ] ] ] ] ].
    + intros fuel _. change (advanceTime_loop fuel x s = Some (x, s)).
      apply advanceTime_loop_exit. now rewrite Hcfg.
    + change (inject_Z (Z.of_nat 0)) with 0.
      apply Qabs_Qle_condition. unfold Double.unitRoundoff. split; lra.
Qed.

(** Enough half ticks to cover an elapsed time. *)
Lemma half_ticks (c e : Q) :
  0 < c -> 0 <= e ->
  exists k : nat, e <= c + inject_Z (Z.of_nat k) * (c * (1 # 2)).
Proof.
  intros Hc He.
  set (x := 2 * e / c).
  assert (Hx : x * c == 2 * e) by (unfold x; field; lra).
  assert (Hx0 : 0 <= x).
  { unfold x. apply Qle_shift_div_l; [exact Hc | lra]. }
  pose proof (Qle_ceiling x) as Hceil.
  assert (H0 : (0 <= Qceiling x)%Z).
  { rewrite Zle_Qle. change (inject_Z 0) with 0. lra. }
  exists (Z.to_nat (Qceiling x)). rewrite Z2Nat.id by exact H0.
  set (K := inject_Z (Qceiling x)) in *. clearbody K x. nra.
Qed.

(** C6: every call of [stepOnce] adds exactly 1 to [currentIteration]
    and exactly [config.dt] to [totalTime], for every world, running or
    stopped; the run state is unchanged and the callback receives
    [config.dt]. *)
Theorem stepOnce_advances (w : PulleyWorld) (plant : Plant) :
  let s' := World.stepOnce stepIntegrate (w, plant) in
  currentIteration s'.1 = (currentIteration w + 1)%Z
  /\ totalTime s'.1 = totalTime w + dt (config w)
  /\ running s'.1 = running w
  /\ config s'.1 = config w
  /\ s'.2 = stepIntegrate (dt (config w)) plant.
Proof. cbn. repeat split; reflexivity. Qed.

(** A catch-up from an elapsed time [e]: the steps taken, the remainder
    and the ratio returned. *)
Lemma advanceTime_catch_up (w : PulleyWorld) (plant : Plant) (now last : Q) :
  0 < dt (config w) ->
  running w = true ->
  lastStepTime w = Some last ->
  let e := Double.div (Double.sub now last) 1000 in
  0 <= e ->
  e <= Double.maxTicks * dt (config w) ->
  exists (n : nat) (rem : Q),
    (forall fuel, (n <= fuel)%nat ->
       advanceTime fuel now (w, plant)
       = Some (Some (Double.div rem (dt (config w))), steps n (w, plant)))
    /\ 0 <= rem <= dt (config w)
    /\ (0 < e -> 0 < rem)
    /\ (n = 0%nat <-> e <= dt (config w))
    /\ (n = 0%nat -> rem = e)
    /\ Qabs (e - (inject_Z (Z.of_nat n) * dt (config w) + rem))
       <= inject_Z (Z.of_nat n) * e * Double.unitRoundoff.
Proof.
  intros Hpos Hrun Hlast e He Hmax.
  destruct (half_ticks (dt (config w)) e Hpos He) as [k Hk].
  destruct (advanceTime_loop_run (dt (config w)) Hpos k e (w, plant) eq_refl He Hmax Hk)
    as (n & rem & _ & Hloop & Hrem & Hp & Hz & Hz' & Hacc).
  exists n, rem.
  split; [ | split; [exact Hrem | split; [exact Hp | split; [exact Hz | split;
    [exact Hz' | exact Hacc] ] ] ] ].
  intros fuel Hfuel.
  unfold World.advanceTime, getDtSinceLastStep, isRunning. cbn [fst].
  rewrite Hrun, Hlast. cbn [negb fmap option_fmap option_map]. fold e.
  rewrite (Hloop fuel Hfuel), steps_config. reflexivity.
Qed.

(** A ratio of a remainder in [[0, dt]] lies in [[0, 1]]. *)
Lemma ratio_range (c rem : Q) :
  0 < c -> 0 <= rem <= c ->
  0 <= Double.div rem c <= 1
  /\ (0 < rem -> 0 < Double.div rem c)
  /\ (rem == c -> Double.div rem c = 1).
Proof.
  intros Hc [H0 H1]. unfold Double.div.
  assert (Hq0 : 0 <= rem / c) by (apply Qle_shift_div_l; lra).
  assert (Hq1 : rem / c <= 1) by (apply Qle_shift_div_r; lra).
  split; [split | split].
  - change 0 with (Double.round 0). now apply round_mono.
  - change 1 with (Double.round 1). now apply round_mono.
  - intros Hp. apply round_sign. apply Qlt_shift_div_l; lra.
  - intros E. change 1 with (Double.round 1). apply round_proper.
    rewrite E. field. lra.
Qed.

(** C2 (amended): while stopped, [advanceTime] performs no step and
    returns 0.  While running, with a non-negative elapsed time [e] (the
    double that [getDtSinceLastStep] computes) of at most [2^52] ticks, it
    returns after some [n] steps, one for each time it has subtracted
    [config.dt] from a remaining time that strictly exceeded it: none
    exactly when [e <= config.dt]; the [n] ticks and the remainder add up
    to [e] but for the [n] rounding errors of the subtractions.  It
    returns the remainder divided by [config.dt], a value in the closed
    interval [[0, 1]], positive when [e > 0] and equal to 1 when [e] is
    exactly one tick. *)
Theorem advanceTime_ratio (w : PulleyWorld) (plant : Plant) (now : Q) :
  0 < dt (config w) ->
  (running w = false ->
     forall fuel, advanceTime fuel now (w, plant) = Some (Some 0, (w, plant)))
  /\ (forall last, running w = true -> lastStepTime w = Some last ->
       let e := Double.div (Double.sub now last) 1000 in
       0 <= e ->
       e <= Double.maxTicks * dt (config w) ->
       exists (n : nat) (rem r : Q),
         (forall fuel, (n <= fuel)%nat ->
            advanceTime fuel now (w, plant) = Some (Some r, steps n (w, plant)))
         /\ r = Double.div rem (dt (config w))
         /\ 0 <= rem <= dt (config w)
         /\ Qabs (e - (inject_Z (Z.of_nat n) * dt (config w) + rem))
            <= inject_Z (Z.of_nat n) * e * Double.unitRoundoff
         /\ (n = 0%nat <-> e <= dt (config w))
         /\ 0 <= r <= 1
         /\ (0 < e -> 0 < r)
         /\ (e == dt (config w) -> n = 0%nat /\ r = 1)).
Proof.
  intros Hpos. split.
  - intros Hstop fuel.
    unfold World.advanceTime, getDtSinceLastStep, isRunning. cbn [fst].
    rewrite Hstop. cbn [negb].
    rewrite advanceTime_loop_exit by (cbn [fst]; lra).
    cbn [fst]. unfold Double.div.
    rewrite (round_of_zero (0 / dt (config w))); [reflexivity | ].
    field. lra.
  - intros last Hrun Hlast e He Hmax.
    destruct (advanceTime_catch_up w plant now last Hpos Hrun Hlast He Hmax)
      as (n & rem & Hret & Hrem & Hp & Hz & Hz' & Hacc).
    destruct (ratio_range (dt (config w)) rem Hpos Hrem) as (Hr & Hrp & Hr1).
    exists n, rem, (Double.div rem (dt (config w))).
    split; [exact Hret | split; [reflexivity | split; [exact Hrem | split;
      [exact Hacc | split; [exact Hz | split; [exact Hr | split ] ] ] ] ] ].
    + intros H. apply Hrp. now apply Hp.
    + intros E.
      assert (Hn : n = 0%nat) by (apply Hz; apply Qle_lteq; right; exact E).
      split; [exact Hn | ]. apply Hr1. rewrite (Hz' Hn). exact E.
Qed.


(** Why the elapsed time is bounded: at [2^54] ticks the rounded
    subtraction of one tick returns its argument, and the loop goes on for
    as long as it is given fuel. *)
Lemma advanceTime_loop_stalls fuel : forall (s : PulleyWorld * Plant),
  dt (config s.1) = 1 ->
  advanceTime_loop fuel 18014398509481984 s = None.
Proof.
  assert (E : Double.sub 18014398509481984 1 = 18014398509481984)
    by (vm_compute; reflexivity).
  induction fuel as [|fuel IH]; intros s Hc; cbn [World.advanceTime_loop]; rewrite Hc.
  - reflexivity.
  - rewrite E. cbn [Num.gtb Num.ltb Qle_bool negb]. apply IH. now rewrite step_config.
Qed.

End WithCallback.

Lemma world15_constructed :
  (w ← PulleyWorld_new (Some (Double.round (15 # 1000))) 0 5; mret (startLoop 0 w))
  = JS.Return world15.
Proof. reflexivity. Qed.

Lemma advanceTime_ratio_witness :
  exists (n : nat) (r : Q),
    (forall fuel, (n <= fuel)%nat ->
       World.advanceTime (fun _ (p : unit) => p) fuel 40 (world15, tt)
       = Some (Some r, World.steps (fun _ (p : unit) => p) n (world15, tt)))
    /\ 0 <= r <= 1.
Proof.
  destruct (advanceTime_ratio (fun _ (p : unit) => p) world15 tt 40) as [_ Hrun];
    [reflexivity | ].
  destruct (Hrun 0 eq_refl eq_refl) as (n & rem & r & Hfuel & _ & _ & _ & _ & Hr & _);
    [vm_compute; discriminate | vm_compute; discriminate | ].
  exists n, r. split; assumption.
Defined.

(** C2 as stated fails when the elapsed time is exactly one tick: 15 ms
    after the last step, with [dt: .015], the elapsed time that
    [getDtSinceLastStep] computes is the double of one whole tick, yet no
    step is performed (the world is unchanged) and the returned ratio is
    1, outside [0, 1). *)
Lemma advanceTime_whole_tick :
  exists e r,
    getDtSinceLastStep 15 world15 = Some e
    /\ e = dt (config world15)
    /\ World.advanceTime (fun _ (p : unit) => p) 3 15 (world15, tt)
       = Some (Some r, (world15, tt))
    /\ r = 1
    /\ ~ r < 1.
Proof.
  eexists. eexists.
  split; [vm_compute; reflexivity | ].
  split; [vm_compute; reflexivity | ].
  split; [vm_compute; reflexivity | ].
  split; [reflexivity | discriminate].
Qed.

(** The roundings of the subtractions add up: 135 ms after the last step,
    nine ticks of [.015], the remaining time after eight subtractions is
    still above one tick by a rounding error, a ninth step is taken, and
    the ratio returned is the leftover rounding error
    (about 9.25e-16). *)
Lemma advanceTime_nine_ticks :
  World.advanceTime (fun _ (p : unit) => p) 20 135 (world15, tt)
  = Some (Some (4691249611844267 # 5070602400912917605986812821504),
          World.steps (fun _ (p : unit) => p) 9 (world15, tt)).
Proof. vm_compute. reflexivity. Qed.

End SteppingFacts.

(** ** The world stepper: object management *)

Module RegistryFacts.
Import JS Objects World.

Lemma addObject_objectId (o : WorldObject) (w : PulleyWorld) :
  objectId (addObject o w).2.2 = Some (idFor o w).
Proof.
  unfold addObject, idFor. destruct (hasId o); cbn;
    match goal with |- context [assert ?c ?m] => destruct (assert c m) end;
    reflexivity.
Qed.

Lemma addObject_lastObjectId (o : WorldObject) (w : PulleyWorld) :
  lastObjectId (addObject o w).2.1
  = match hasId o with Some _ => lastObjectId w | None => (lastObjectId w + 1)%N end.
Proof.
  unfold addObject. destruct (hasId o); cbn;
    match goal with |- context [assert ?c ?m] => destruct (assert c m) end;
    cbn; try reflexivity;
    match goal with |- context [truthy ?z] => destruct (truthy z) end; reflexivity.
Qed.

Lemma removeObject_lastObjectId (o : WorldObject) (w : PulleyWorld) :
  lastObjectId (removeObject o w) = lastObjectId w.
Proof.
  unfold removeObject. destruct (objectId o); [ | reflexivity].
  destruct (truthy _); reflexivity.
Qed.

(** The counter never decreases. *)
Lemma run_lastObjectId (ops : list op) (w : PulleyWorld) :
  (lastObjectId w <= lastObjectId (run ops w))%N.
Proof.
  revert w. induction ops as [|o ops IH]; intros w; [cbn; lia | ].
  cbn [run foldl]. etransitivity; [ | apply IH].
  destruct o as [x | x]; cbn [applyOp].
  - rewrite addObject_lastObjectId. destruct (hasId x); lia.
  - rewrite removeObject_lastObjectId. lia.
Qed.

(** A failed registration changes neither map. *)
Lemma addObject_throw_frame (o : WorldObject) (w : PulleyWorld) e :
  (addObject o w).1 = Throw e ->
  objects (addObject o w).2.1 = objects w /\ movables (addObject o w).2.1 = movables w.
Proof.
  unfold addObject. destruct (hasId o); cbn;
    match goal with |- context [assert ?c ?m] => destruct (assert c m) end;
    cbn; intros E; try discriminate E; split; reflexivity.
Qed.

Lemma addObject_outcome (o : WorldObject) (w : PulleyWorld) :
  let id := idFor o w in
  match objects w !! id with
  | Some _ =>
      (addObject o w).1 = Throw (AssertionError "Object was added twice")
  | None =>
      (addObject o w).1 = Return tt
      /\ objects (addObject o w).2.1 = <[id := (addObject o w).2.2]> (objects w)
      /\ movables (addObject o w).2.1
         = if canMove o then <[id := (addObject o w).2.2]> (movables w)
           else movables w
  end.
Proof.
  unfold addObject, idFor.
  destruct (hasId o) as [n|]; cbn [set_lastObjectId objects lastObjectId].
  - destruct (objects w !! n) as [x|] eqn:E.
    + rewrite bool_decide_eq_true_2 by eauto. reflexivity.
    + rewrite bool_decide_eq_false_2 by (intros [x Hx]; congruence).
      cbn. unfold isObjectType, getObjectType, canMove. cbn.
      destruct (class o); cbn; auto.
  - destruct (objects w !! (lastObjectId w + 1)%N) as [x|] eqn:E.
    + rewrite bool_decide_eq_true_2 by eauto. reflexivity.
    + rewrite bool_decide_eq_false_2 by (intros [x Hx]; congruence).
      cbn. unfold isObjectType, getObjectType, canMove. cbn.
      destruct (class o); cbn; auto.
Qed.

(** C9 (amended): [addObject] gives an object without an id the next value
    of the counter, [lastObjectId + 1]; adding an object whose id is
    already registered fails and leaves [objects] and [movables]
    unchanged; the counter never decreases and [removeObject] does not
    touch it, so every id that the allocator hands out after any history
    of additions and removals is greater than the counter was, and in
    particular differs from every id the allocator handed out before. *)
Theorem addObject_ids (o : WorldObject) (w : PulleyWorld) :
  let r := addObject o w in
  (hasId o = None ->
     objectId r.2.2 = Some (lastObjectId w + 1)%N
     /\ lastObjectId r.2.1 = (lastObjectId w + 1)%N)
  /\ (forall id, objectId r.2.2 = Some id -> is_Some (objects w !! id) ->
        r.1 = Throw (AssertionError "Object was added twice")
        /\ objects r.2.1 = objects w /\ movables r.2.1 = movables w)
  /\ (forall id, objectId r.2.2 = Some id -> objects w !! id = None ->
        r.1 = Return tt /\ objects r.2.1 !! id = Some r.2.2)
  /\ (forall ops o' id',
        hasId o' = None ->
        objectId (addObject o' (run ops r.2.1)).2.2 = Some id' ->
        (lastObjectId r.2.1 < id')%N)
  /\ (hasId o = None ->
      forall ops o', hasId o' = None ->
        objectId (addObject o' (run (Remove r.2.2 :: ops) r.2.1)).2.2
        <> objectId r.2.2).
Proof.
  intros r. subst r.
  pose proof (addObject_objectId o w) as Hid.
  pose proof (addObject_lastObjectId o w) as Hlast.
  pose proof (addObject_outcome o w) as Hout. cbn zeta in Hout.
  assert (Hlater : forall w0 ops o' id',
             hasId o' = None ->
             objectId (addObject o' (run ops w0)).2.2 = Some id' ->
             (lastObjectId w0 < id')%N).
  { intros w0 ops o' id' Hnone Hid'.
    rewrite addObject_objectId in Hid'. unfold idFor in Hid'.
    rewrite Hnone in Hid'.
    injection Hid' as <-.
    pose proof (run_lastObjectId ops w0). lia. }
  split; [ | split; [ | split; [ | split ] ] ].
  - intros Hnone. rewrite Hid, Hlast. unfold idFor. rewrite Hnone.
    split; reflexivity.
  - intros id Hid' [x Hx]. rewrite Hid in Hid'. injection Hid' as Hid'.
    rewrite Hid', Hx in Hout.
    split; [exact Hout | ]. eapply addObject_throw_frame. exact Hout.
  - intros id Hid' Hx. rewrite Hid in Hid'. injection Hid' as Hid'.
    rewrite Hid', Hx in Hout. destruct Hout as (Hret & Hobj & _).
    split; [exact Hret | ]. rewrite Hobj. apply lookup_insert_eq.
  - intros ops o' id'. apply Hlater.
  - intros Hnone ops o' Hnone' E.
    rewrite Hid in E. unfold idFor in E. rewrite Hnone in E.
    apply (Hlater _ (Remove (addObject o w).2.2 :: ops) o' _ Hnone') in E.
    rewrite Hlast, Hnone in E. lia.
Qed.

Lemma addObject_ids_witness :
  objectId (addObject anonymous emptyWorld).2.2 = Some 1%N
  /\ (addObject explicit1 (addObject anonymous emptyWorld).2.1).1
     = Throw (AssertionError "Object was added twice")
  /\ objectId (addObject anonymous
                 (run [Remove (addObject anonymous emptyWorld).2.2]
                      (addObject anonymous emptyWorld).2.1)).2.2
     <> Some 1%N.
Proof.
  split; [ | split ].
  - apply (proj1 (addObject_ids anonymous emptyWorld)). reflexivity.
  - refine (proj1 (proj1 (proj2 (addObject_ids explicit1
              (addObject anonymous emptyWorld).2.1)) 1%N _ _)).
    + reflexivity.
    + eexists. reflexivity.
  - apply (proj2 (proj2 (proj2 (proj2 (addObject_ids anonymous emptyWorld))))
             eq_refl [] anonymous eq_refl).
Defined.

(** C9 as stated fails for an id that did not come from the counter: an
    object created with the explicit id 1 is added to a new world and
    removed; the next object without an id is then assigned id 1, the id
    that was just freed. *)
Lemma removed_id_reassigned :
  let r1 := addObject explicit1 emptyWorld in
  let w2 := removeObject r1.2.2 r1.2.1 in
  let r3 := addObject anonymous w2 in
  r1.1 = Return tt
  /\ objects r1.2.1 !! 1%N = Some explicit1
  /\ objects w2 !! 1%N = None
  /\ hasId anonymous = None
  /\ r3.1 = Return tt
  /\ objectId r3.2.2 = Some 1%N
  /\ objects r3.2.1 !! 1%N = Some r3.2.2.
Proof. vm_compute. repeat split; reflexivity. Qed.

(** A removed object keeps its [objectId]; added again, it is registered
    under the id it had. *)
Lemma removed_object_readded :
  let r1 := addObject anonymous emptyWorld in
  let w2 := removeObject r1.2.2 r1.2.1 in
  let r3 := addObject r1.2.2 w2 in
  objectId r1.2.2 = Some 1%N
  /\ objects w2 !! 1%N = None
  /\ r3.1 = Return tt
  /\ objects r3.2.1 !! 1%N = Some r1.2.2.
Proof. vm_compute. repeat split; reflexivity. Qed.

End RegistryFacts.

(** ** Point queries and the caller's vector *)

Module QueryFacts.
Open Scope Q_scope.
Import Objects World.

(** [containsPoint] overwrites the vector it is given with the
    difference to the object's position and changes no other cell. *)
Lemma containsPoint_store (o : WorldObject) (p : loc) (st : Store) :
  allocated st p ->
  let r := containsPoint o p st in
  r.2 = <[p := Vec2.subtract (st !!! p) (st !!! position o)]> st
  /\ r.2 !!! p = Vec2.subtract (st !!! p) (st !!! position o)
  /\ r.1 = hitAt st (st !!! p) o.
Proof.
  intros Hp r. subst r. unfold containsPoint, hitAt. cbn [fst snd].
  split; [reflexivity | ].
  rewrite list_lookup_total_insert_eq by exact Hp.
  split; reflexivity.
Qed.

Section Foreach.
Context {U : Type}.
Variable callback : WorldObject -> U -> U.

(** One turn of the loop, on a store that is the caller's store followed
    by the scratch vector: the caller's cells stay, and the object is
    tested against the caller's point. *)
Lemma visit_frame (st0 : Store) (_point : loc) (o : WorldObject) (v : Vec2.t) (u : U) :
  allocated st0 _point ->
  exists v',
    visit callback _point (length st0) o (st0 ++ [v], u)
    = (st0 ++ [v'],
       if Shapes.containsPoint (shape o)
            (Vec2.subtract (st0 !!! _point)
               ((st0 ++ [st0 !!! _point]) !!! position o))
       then callback o u else u).
Proof.
  intros Hp. unfold allocated in Hp.
  unfold visit, containsPoint.
  rewrite (lookup_total_app_l st0 [v] _point) by exact Hp.
  assert (E1 : <[length st0 := st0 !!! _point]> (st0 ++ [v])
               = st0 ++ [st0 !!! _point]).
  { rewrite insert_app_r_alt by lia. now rewrite Nat.sub_diag. }
  rewrite E1.
  rewrite (list_lookup_total_middle st0 [] (st0 !!! _point) (length st0) eq_refl).
  set (d := Vec2.subtract (st0 !!! _point) ((st0 ++ [st0 !!! _point]) !!! position o)).
  assert (E2 : <[length st0 := d]> (st0 ++ [st0 !!! _point]) = st0 ++ [d]).
  { rewrite insert_app_r_alt by lia. now rewrite Nat.sub_diag. }
  rewrite E2.
  rewrite (list_lookup_total_middle st0 [] d (length st0) eq_refl).
  exists d. reflexivity.
Qed.

Lemma foldl_visit_frame (st0 : Store) (_point : loc) (l : list (N * WorldObject)) :
  allocated st0 _point ->
  forall (v : Vec2.t) (u : U),
  exists v',
    foldl (fun s kv => visit callback _point (length st0) kv.2 s) (st0 ++ [v], u) l
    = (st0 ++ [v'],
       foldl (fun u kv =>
                if Shapes.containsPoint (shape kv.2)
                     (Vec2.subtract (st0 !!! _point)
                        ((st0 ++ [st0 !!! _point]) !!! position kv.2))
                then callback kv.2 u else u) u l).
Proof.
  intros Hp. induction l as [|[k o] l IH]; intros v u.
  - exists v. reflexivity.
  - cbn [foldl snd].
    destruct (visit_frame st0 _point o v u Hp) as [v' ->].
    apply IH.
Qed.

(** An object registered under a position that is a cell of the
    caller's store is tested against the caller's original point. *)
Lemma foldl_hits (st0 : Store) (_point : loc) (l : list (N * WorldObject)) (u : U) :
  (forall kv, kv ∈ l -> allocated st0 (position kv.2)) ->
  foldl (fun u kv =>
           if Shapes.containsPoint (shape kv.2)
                (Vec2.subtract (st0 !!! _point)
                   ((st0 ++ [st0 !!! _point]) !!! position kv.2))
           then callback kv.2 u else u) u l
  = foldl (fun u kv => if hitAt st0 (st0 !!! _point) kv.2
                       then callback kv.2 u else u) u l.
Proof.
  revert u. induction l as [|kv l IH]; intros u Hall; [reflexivity | ].
  cbn [foldl]. unfold hitAt at 2.
  rewrite (lookup_total_app_l st0 _ (position kv.2))
    by (apply Hall; left).
  apply IH. intros kv' Hin. apply Hall. now right.
Qed.

End Foreach.

(** C10: for every world object [o] (rigid or movable) and every vector
    [p] of the store, [containsPoint] leaves in [p] the original [p] minus
    the position of [o] and touches no other vector.
    [foreachObjectAtPoint] copies the query point into a scratch vector
    of its own before each test: when it returns, every vector the caller
    had, the query point included, is unchanged, and the callback has run,
    in key order, on exactly the objects that contain the original query
    point. *)
Theorem containsPoint_mutates_foreach_shields :
  (forall (o : WorldObject) (p : loc) (st : Store),
      allocated st p ->
      let r := containsPoint o p st in
      r.2 !! p = Some (Vec2.subtract (st !!! p) (st !!! position o))
      /\ (forall q, q <> p -> r.2 !! q = st !! q)
      /\ length r.2 = length st)
  /\ (forall (U : Type) (w : PulleyWorld) (_point : loc)
             (callback : WorldObject -> U -> U) (st : Store) (u : U),
      allocated st _point ->
      let r := foreachObjectAtPoint w _point callback (st, u) in
      r.1 !! _point = st !! _point
      /\ (forall q, allocated st q -> r.1 !! q = st !! q)
      /\ length r.1 = S (length st)
      /\ ((forall id o, objects w !! id = Some o -> allocated st (position o)) ->
          r.2 = foldl (fun u kv => if hitAt st (st !!! _point) kv.2
                                   then callback kv.2 u else u)
                      u (objectsInOrder w))).
Proof.
  split.
  - intros o p st Hp r.
    destruct (containsPoint_store o p st Hp) as (E & _ & _).
    fold r in E. rewrite E. split; [ | split ].
    + apply list_lookup_insert_eq. exact Hp.
    + intros q Hq. apply list_lookup_insert_ne. congruence.
    + apply length_insert.
  - intros U w _point callback st u Hp r.
    assert (E : exists v', r.1 = st ++ [v']
                /\ r.2 = foldl (fun u kv =>
                    if Shapes.containsPoint (shape kv.2)
                         (Vec2.subtract (st !!! _point)
                            ((st ++ [st !!! _point]) !!! position kv.2))
                    then callback kv.2 u else u) u (objectsInOrder w)).
    { subst r. unfold foreachObjectAtPoint, alloc.
      destruct (foldl_visit_frame callback st _point (objectsInOrder w) Hp
                  Vec2.create u) as [v' ->].
      exists v'. split; reflexivity. }
    destruct E as (v' & E1 & E2).
    assert (Hframe : forall q, allocated st q -> r.1 !! q = st !! q).
    { intros q Hq. rewrite E1. apply lookup_app_l. exact Hq. }
    split; [apply Hframe; exact Hp | split; [exact Hframe | split ] ].
    + rewrite E1, length_app. cbn. lia.
    + intros Hpos. rewrite E2. apply foldl_hits.
      intros [k o] Hin. cbn. apply (Hpos k o).
      unfold objectsInOrder in Hin.
      rewrite merge_sort_Permutation in Hin.
      now apply elem_of_map_to_list in Hin.
Qed.

Lemma containsPoint_mutates_foreach_shields_witness :
  (containsPoint movableDisk 0%nat store2).2 !! 0%nat
    = Some (Vec2.subtract (3, 4) (1, 1))
  /\ (foreachObjectAtPoint worldWithDisk 0%nat (fun o u => o :: u) (store2, [])).1 !! 0%nat
    = Some (3, 4)
  /\ (foreachObjectAtPoint worldWithDisk 0%nat (fun o u => o :: u) (store2, [])).2
    = [movableDisk].
Proof.
  assert (H0 : allocated store2 0%nat) by (unfold allocated; cbn; lia).
  split; [ | split ].
  - exact (proj1 (proj1 containsPoint_mutates_foreach_shields movableDisk 0%nat store2 H0)).
  - exact (proj1 (proj2 containsPoint_mutates_foreach_shields _ worldWithDisk 0%nat
                    (fun o u => o :: u) store2 [] H0)).
  - vm_compute. reflexivity.
Defined.

End QueryFacts.

(** ** The PID controller *)

Module PIDFacts.
Open Scope Q_scope.
Import PID NumFacts.

(** A control signal inside the dead zone switches both actuators off. *)
Lemma setControllerValue_dead_zone (u : Q) (p : Pulley.Pulley) :
  - (1 # 10000000) <= u <= 1 # 10000000 ->
  Pulley.isPumpOn (Pulley.physics (setControllerValue u p)) = false
  /\ Pulley.isValveOpen (Pulley.physics (setControllerValue u p)) = false.
Proof.
  intros [Hlo Hhi]. cbn [setControllerValue Pulley.pulley_plant].
  unfold Pulley.pulley_setControllerValue.
  apply gtb_le in Hhi. rewrite Hhi.
  apply ltb_ge in Hlo. rewrite Hlo.
  split; reflexivity.
Qed.

Lemma toggleController_physics (c : PIDController) :
  physics (toggleController c) = physics c
  /\ isOn (toggleController c) = negb (isOn c).
Proof. split; reflexivity. Qed.

(** C3: with [isOn] true, one [update] computes
    [error = setPoint - plant.getControllerValue()], [Pout = kP * error],
    adds [kI * error] to the accumulator [Iout],
    [Dout = kD * (error - previous error)], sets [u = Pout + Iout + Dout],
    hands [u] to [plant.setControllerValue] and returns it; with [isOn]
    false it changes nothing.  Toggling [isOn] keeps the accumulator.
    With all gains and the accumulator zero, an update of the pulley
    yields [u = 0], keeps the accumulator zero (so the next update does
    the same) and switches both actuators off. *)
Theorem update_spec :
  (forall (P : Type) (HP : Plant P) (c : PIDController) (plant : P),
      (isOn c = true ->
       let error := setPoint c - getControllerValue plant in
       let pout := kP c * error in
       let iout := Iout (physics c) + kI c * error in
       let dout := kD c * (error - errorValue (physics c)) in
       let total := pout + iout + dout in
       update c plant
       = (Some total,
          ({| setPoint := setPoint c; isOn := true;
              kP := kP c; kI := kI c; kD := kD c;
              physics := {| errorValue := error; Pout := pout; Iout := iout;
                            Dout := dout; u := total |} |},
           setControllerValue total plant)))
      /\ (isOn c = false -> update c plant = (None, (c, plant)))
      /\ Iout (physics (toggleController c)) = Iout (physics c)
      /\ (isOn c = true ->
          Iout (physics (toggleController (update (toggleController c) plant).2.1))
          = Iout (physics c)))
  /\ (forall (c : PIDController) (pulley : Pulley.Pulley),
        zeroGains c ->
        zeroGains (update c pulley).2.1
        /\ (isOn c = true ->
            exists total,
              (update c pulley).1 = Some total
              /\ total == 0
              /\ u (physics (update c pulley).2.1) = total
              /\ Pulley.isPumpOn (Pulley.physics (update c pulley).2.2) = false
              /\ Pulley.isValveOpen (Pulley.physics (update c pulley).2.2) = false)).
Proof.
  split.
  - intros P HP c plant. split; [ | split; [ | split ] ].
    + intros Hon. unfold update. rewrite Hon. reflexivity.
    + intros Hoff. unfold update. rewrite Hoff. reflexivity.
    + reflexivity.
    + intros Hon. unfold update, toggleController. cbn [isOn set_isOn].
      rewrite Hon. reflexivity.
  - intros c pulley (HP & HI & HD & Hacc).
    unfold update. destruct (isOn c) eqn:Hon; cbn [negb fst snd].
    + assert (Hu : kP c * (setPoint c - getControllerValue pulley)
                   + (Iout (physics c) + kI c * (setPoint c - getControllerValue pulley))
                   + kD c * (setPoint c - getControllerValue pulley
                             - errorValue (physics c)) == 0).
      { rewrite HP, HI, HD, Hacc. ring. }
      split.
      * unfold zeroGains. cbn. repeat split; auto.
        rewrite HI, Hacc. ring.
      * intros _. eexists. split; [reflexivity | split; [exact Hu | split ] ].
        -- reflexivity.
        -- apply setControllerValue_dead_zone. rewrite Hu. split; discriminate.
  + split; [ | discriminate ].
    unfold zeroGains. auto.
Qed.

Lemma update_spec_witness :
  exists total,
    (update (PIDControllerClass 2 true 0 0 0) (Pulley.CreatePulley (fun _ => 0) 5)).1
    = Some total /\ total == 0.
Proof.
  destruct (proj2 (proj2 update_spec (PIDControllerClass 2 true 0 0 0)
                     (Pulley.CreatePulley (fun _ => 0) 5)
                     (conj (Qeq_refl 0) (conj (Qeq_refl 0)
                        (conj (Qeq_refl 0) (Qeq_refl 0))))) eq_refl)
    as (total & E & Hz & _).
  exists total. split; assumption.
Defined.

End PIDFacts.

(** ** The pulley plant *)

Module PulleyFacts.
Open Scope Q_scope.
Import Pulley NumFacts.

Lemma Qabs_zero (x : Q) : Qabs x == 0 -> x == 0.
Proof. apply Qabs_case; intros; lra. Qed.

(** The outcome of the collision tests when the position before the tests
    does not pass the floor distance. *)
Lemma resolveCollisions_bounded (p : Pulley) (floor pos vel : Q) :
  0 <= freeStringLength p ->
  0 <= pulleyTop p - floor ->
  pos <= pulleyTop p - floor ->
  let r := resolveCollisions p floor pos vel in
  r.1 <= freeStringLength p
  /\ (freeStringLength p < pos -> r = (freeStringLength p, 0)).
Proof.
  intros Hfsl Hfloor Hpos. unfold resolveCollisions.
  destruct (gtb_spec pos (pulleyTop p - floor)) as [[-> H1] | [-> H1]]; [lra | ].
  destruct (gtb_spec (freeStringLength p - pos) (pulleyTop p - floor))
    as [[-> H2] | [-> H2]].
  { cbn. split; [lra | intros; lra]. }
  destruct (ltb_spec pos 0) as [[-> H3] | [-> H3]].
  { cbn. split; [lra | intros; lra]. }
  destruct (ltb_spec (freeStringLength p - pos) 0) as [[-> H4] | [-> H4]].
  { cbn. split; [lra | intros; reflexivity]. }
  cbn. split; [lra | intros; lra].
Qed.

Section WithPow.
Variable sphereRadius : Q -> Q.

(** Unless the masses balance, the step is defined; its position and
    velocity are the outcome of the collision tests on the Euler
    update, and the constants are untouched. *)
Lemma stepIntegrate_physics (floor dt : Q) (p : Pulley) :
  massesDiffer dt p ->
  exists p',
    stepIntegrate sphereRadius floor dt p = Some p'
    /\ (payloadPosition (physics p'), payloadVelocity (physics p'))
       = resolveCollisions p floor (unclampedPosition dt p) (unclampedVelocity dt p)
    /\ freeStringLength p' = freeStringLength p
    /\ sameConstants p' p
    /\ ballonetVolume (physics p') = fst (massAfterActuators dt p).
Proof.
  intros Hm. unfold massesDiffer in Hm.
  unfold stepIntegrate, unclampedPosition, unclampedVelocity, accelerationOf.
  destruct (massAfterActuators dt p) as [volume mass] eqn:E.
  cbn [fst snd] in *.
  assert (Hden : Qeq_bool (Qabs (mass - counterWeightMass p)) 0 = false).
  { apply Qeq_bool_false. intros H0. apply Qabs_zero in H0. apply Hm. lra. }
  rewrite Hden.
  destruct (resolveCollisions p floor _ _) as [position velocity] eqn:R.
  eexists. split; [reflexivity | ].
  cbn. unfold sameConstants. cbn. repeat split; reflexivity.
Qed.

(** When the floor tests do not fire, the string is what stops the
    payload: on a tick whose position before the collision tests exceeds
    [freeStringLength] without exceeding the floor-to-pulley distance,
    [payloadPosition] becomes exactly [freeStringLength] and
    [payloadVelocity] exactly 0. *)
Lemma stepIntegrate_string_clamp (floor dt : Q) (p : Pulley) :
  massesDiffer dt p ->
  0 <= freeStringLength p ->
  0 <= pulleyTop p - floor ->
  unclampedPosition dt p <= pulleyTop p - floor ->
  exists p',
    stepIntegrate sphereRadius floor dt p = Some p'
    /\ freeStringLength p' = freeStringLength p
    /\ payloadPosition (physics p') <= freeStringLength p
    /\ (freeStringLength p < unclampedPosition dt p ->
        payloadPosition (physics p') = freeStringLength p
        /\ payloadVelocity (physics p') = 0).
Proof.
  intros Hm Hfsl Hfloor Hpos.
  destruct (stepIntegrate_physics floor dt p Hm) as (p' & E & Hr & Hc & _).
  destruct (resolveCollisions_bounded p floor (unclampedPosition dt p)
              (unclampedVelocity dt p) Hfsl Hfloor Hpos) as [Hle Hclamp].
  rewrite <- Hr in Hle, Hclamp. cbn [fst] in Hle.
  exists p'. split; [exact E | split; [exact Hc | split; [exact Hle | ] ] ].
  intros Hgt. specialize (Hclamp Hgt).
  injection Hclamp as -> ->. split; reflexivity.
Qed.

(** The left side against the floor: the second test stops the payload
    where the left string is exactly as long as the floor is far,
    [freeStringLength - floorHeight]. *)
Lemma stepIntegrate_left_floor (floor dt : Q) (p : Pulley) :
  massesDiffer dt p ->
  unclampedPosition dt p <= pulleyTop p - floor ->
  pulleyTop p - floor < freeStringLength p - unclampedPosition dt p ->
  exists p',
    stepIntegrate sphereRadius floor dt p = Some p'
    /\ payloadPosition (physics p') = freeStringLength p - (pulleyTop p - floor)
    /\ payloadVelocity (physics p') = 0.
Proof.
  intros Hm Hle Hgt.
  destruct (stepIntegrate_physics floor dt p Hm) as (p' & E & Hr & _).
  exists p'. split; [exact E | ].
  unfold resolveCollisions in Hr.
  apply gtb_le in Hle. apply gtb_gt in Hgt. rewrite Hle, Hgt in Hr.
  injection Hr as -> ->. split; reflexivity.
Qed.

(** C1 (the code departs from the claim): the right side against the
    floor.  On a tick whose position before the collision tests exceeds
    the floor-to-pulley distance [floorHeight = pulleyTop - floor], the
    first test fires and sets [payloadPosition] to [pulleyTop], not to
    [floorHeight]: with a floor above 0 the right string still reaches
    below the floor, and where the wheel hangs higher than the string is
    long, [payloadPosition] exceeds [freeStringLength]. *)
Theorem stepIntegrate_past_floor (floor dt : Q) (p : Pulley) :
  massesDiffer dt p ->
  pulleyTop p - floor < unclampedPosition dt p ->
  exists p',
    stepIntegrate sphereRadius floor dt p = Some p'
    /\ payloadPosition (physics p') = pulleyTop p
    /\ payloadVelocity (physics p') = 0
    /\ (0 < floor -> pulleyTop p - floor < payloadPosition (physics p'))
    /\ (freeStringLength p < pulleyTop p ->
        ~ payloadPosition (physics p') <= freeStringLength p).
Proof.
  intros Hm Hgt.
  destruct (stepIntegrate_physics floor dt p Hm) as (p' & E & Hr & _).
  exists p'. split; [exact E | ].
  unfold resolveCollisions in Hr.
  apply gtb_gt in Hgt. rewrite Hgt in Hr.
  injection Hr as -> ->.
  split; [reflexivity | split; [reflexivity | split ] ]; intros; lra.
Qed.

End WithPow.

Lemma pulley5_descending_massesDiffer : massesDiffer (15 # 1000) pulley5_descending.
Proof. vm_compute. discriminate. Qed.

(** The pulley of the application over a floor at 2.5 m
    ([floorHeight = 1.9]), the right string 1.895 m long and growing at
    0.9 m/s: one tick of 15 ms takes the position to 1.90426775 before
    the tests and leaves it at 4.4, beyond the string length 3. *)
Lemma stepIntegrate_past_floor_witness :
  0 <= payloadPosition (physics pulley5_descending) <= freeStringLength pulley5_descending
  /\ pulleyTop pulley5_descending - (5 # 2) == 19 # 10
  /\ unclampedPosition (15 # 1000) pulley5_descending == 190426775 # 100000000
  /\ exists p',
       stepIntegrate noDrawing (5 # 2) (15 # 1000) pulley5_descending = Some p'
       /\ payloadPosition (physics p') == 44 # 10
       /\ ~ payloadPosition (physics p') <= freeStringLength pulley5_descending.
Proof.
  split; [split; discriminate | split; [reflexivity | split; [reflexivity | ] ] ].
  destruct (stepIntegrate_past_floor noDrawing (5 # 2) (15 # 1000) pulley5_descending)
    as (p' & E & Hpos & _ & _ & Hover).
  - exact pulley5_descending_massesDiffer.
  - vm_compute. reflexivity.
  - exists p'. split; [exact E | split ].
    + rewrite Hpos. reflexivity.
    + apply Hover. reflexivity.
Defined.

End PulleyFacts.

(** * Further properties of the code *)

(** ** Shapes: disks and thick lines *)

Module ShapesProps.
Open Scope Q_scope.
Import JS Vec2 Shapes NumFacts.

(** The comparisons do not tell equal rationals apart. *)
Lemma leb_proper (a a' b b' : Q) : a == a' -> b == b' -> Num.leb a b = Num.leb a' b'.
Proof.
  intros Ha Hb. apply eq_true_iff_eq. rewrite !leb_le, Ha, Hb. reflexivity.
Qed.

(** X1: a disk contains its own centre; a disk of radius [-r] contains
    exactly the points of the disk of radius [r] (the test squares the
    radius); and growing a non-negative radius never loses a point. *)
Theorem Disk_containsPoint_radius (c p : Vec2.t) (r r' : Q) :
  Disk_containsPoint {| center := c; radius := r |} c = true
  /\ Disk_containsPoint {| center := c; radius := - r |} p
     = Disk_containsPoint {| center := c; radius := r |} p
  /\ (0 <= r <= r' ->
      Disk_containsPoint {| center := c; radius := r |} p = true ->
      Disk_containsPoint {| center := c; radius := r' |} p = true).
Proof.
  unfold Disk_containsPoint. cbn [center radius].
  rewrite !ShapesFacts.squaredDistance_Arr.
  split; [ | split ].
  - apply leb_le. nra.
  - apply leb_proper; [reflexivity | ring].
  - intros [Hr Hrr] H. apply leb_le in H. apply leb_le. nra.
Qed.

Lemma Disk_containsPoint_radius_witness :
  0 <= 1 <= 2
  /\ Disk_containsPoint {| center := (0, 0); radius := 1 |} (1, 0) = true
  /\ Disk_containsPoint {| center := (0, 0); radius := 2 |} (1, 0) = true.
Proof.
  assert (H : 0 <= 1 <= 2) by (split; discriminate).
  split; [exact H | split; [reflexivity | ] ].
  apply (proj2 (proj2 (Disk_containsPoint_radius (0, 0) (1, 0) 1 2)) H).
  reflexivity.
Defined.

(** X4: the box of [Line.getBoundingBox] pads the ends by [width / 2], but
    [containsPoint] accepts points up to [width] away from an end: for
    every horizontal line of positive width, the point one width before the
    first end is contained in the line and lies outside its bounding box. *)
Theorem Line_boundingBox_misses (x1 x2 y w : Q) (aabb : AABB) :
  x1 < x2 ->
  0 < w ->
  let l := {| v1 := (x1, y); v2 := (x2, y); width := w |} in
  Line_containsPoint l (x1 - w, y) = true
  /\ exists b, Line_getBoundingBox l aabb = Return b
       /\ AABB_containsPoint b (x1 - w, y) = false.
Proof.
  intros Hx Hw l. subst l. split.
  - unfold Line_containsPoint, distToSegmentSquared. cbn [v1 v2 width].
    rewrite ShapesFacts.squaredDistance_Arr. cbn [fst snd].
    assert (Hl2 : 0 < (x2 - x1) * (x2 - x1) + (y - y) * (y - y)) by nra.
    assert (E : Qeq_bool ((x2 - x1) * (x2 - x1) + (y - y) * (y - y)) 0 = false).
    { apply Qeq_bool_false. lra. }
    rewrite E.
    assert (Et : Num.ltb (((x1 - w - x1) * (x2 - x1) + (y - y) * (y - y))
                          / ((x2 - x1) * (x2 - x1) + (y - y) * (y - y))) 0 = true).
    { apply ltb_lt. apply Qlt_shift_div_r; [exact Hl2 | nra]. }
    rewrite Et, ShapesFacts.squaredDistance_Arr. cbn [fst snd Num.sqrt_nan_leb].
    unfold Num.sqrt_leb. apply andb_true_intro. split; apply leb_le; [lra | ].
    ring_simplify. lra.
  - eexists. split; [reflexivity | ].
    unfold AABB_containsPoint. cbn [min max fst snd v1 v2 width].
    assert (E : Num.geb (x1 - w) (Qmin x1 x2 - w / 2) = false).
    { unfold Num.geb. apply leb_gt. rewrite (Q.min_l x1 x2) by lra.
      assert (w / 2 < w); [ | lra].
      apply Qlt_shift_div_r; lra. }
    rewrite E. reflexivity.
Qed.

Lemma Line_boundingBox_misses_witness :
  Line_containsPoint line_3_2 (0 - 2, 0) = true.
Proof.
  refine (proj1 (Line_boundingBox_misses 0 3 0 2
                   {| min := (0, 0); max := (0, 0) |} _ _));
    reflexivity.
Defined.

End ShapesProps.

(** ** World objects: type flags *)

Module ObjectsProps.
Import Objects.

(** X5: the Movable flag query agrees with [canMove] for every object,
    every object answers the RigidBody query, and the query is an any-bit
    test: a body that cannot move still answers the combined
    RigidBody|Movable query. *)
Theorem isObjectType_flags (o : WorldObject) :
  truthy (isObjectType o ObjectType.Movable) = canMove o
  /\ truthy (isObjectType o ObjectType.RigidBody) = true
  /\ truthy (isObjectType o (Z.lor ObjectType.RigidBody ObjectType.Movable)) = true.
Proof.
  unfold isObjectType, getObjectType, canMove.
  destruct (class o); repeat split; reflexivity.
Qed.

End ObjectsProps.

(** ** The collision-pair list: order and aging *)

Module CollisionsProps.
Import JS Objects Collisions.

(** X6: on objects with ids, [compareObjects] is a strict total order: no
    object comes before itself, of two objects with distinct ids exactly
    one comes first, the relation is transitive, and a movable object
    comes before every object that cannot move. *)
Theorem compareObjects_strict_order (o1 o2 o3 : WorldObject) (a b c : N) :
  objectId o1 = Some a -> objectId o2 = Some b -> objectId o3 = Some c ->
  compareObjects o1 o1 = false
  /\ (a <> b -> compareObjects o1 o2 = negb (compareObjects o2 o1))
  /\ (compareObjects o1 o2 = true -> compareObjects o2 o3 = true ->
      compareObjects o1 o3 = true)
  /\ (canMove o1 = true -> canMove o2 = false -> compareObjects o1 o2 = true).
Proof.
  intros Ha Hb Hc.
  unfold compareObjects, isObjectType, getObjectType, canMove.
  rewrite Ha, Hb, Hc.
  split; [ | split; [ | split ] ].
  - destruct (class o1); cbn; apply N.ltb_irrefl.
  - intros Hne. destruct (class o1), (class o2); cbn; try reflexivity;
      destruct (N.ltb_spec b a), (N.ltb_spec a b); cbn; try reflexivity; lia.
  - destruct (class o1), (class o2), (class o3); cbn; intros H1 H2;
      try discriminate H1; try discriminate H2; try reflexivity;
      apply N.ltb_lt in H1; apply N.ltb_lt in H2; apply N.ltb_lt; lia.
  - destruct (class o1), (class o2); cbn; try discriminate; reflexivity.
Qed.

Lemma compareObjects_strict_order_witness :
  compareObjects bodyB bodyA = negb (compareObjects bodyA bodyB)
  /\ compareObjects bodyM bodyB = true.
Proof.
  pose proof (compareObjects_strict_order bodyB bodyA bodyA 2 1 1 eq_refl eq_refl eq_refl)
    as (_ & H1 & _).
  pose proof (compareObjects_strict_order bodyM bodyB bodyB 3 2 2 eq_refl eq_refl eq_refl)
    as (_ & _ & _ & H2).
  split; [apply H1; discriminate | apply H2; reflexivity].
Defined.

(** The entries of a map, in the order of the loop. *)
Lemma elem_of_entriesInOrder {A} (m : gmap (option N) A) (k : option N) (x : A) :
  (k, x) ∈ entriesInOrder m <-> m !! k = Some x.
Proof.
  unfold entriesInOrder. rewrite merge_sort_Permutation.
  apply elem_of_map_to_list.
Qed.

(** What the inner loop adds to the record of fired callbacks. *)
Lemma fired_inner (cl : CollisionList) (l : list (option N * CollisionPair))
    (acc : list (PairEvent * CollisionPair)) (x : PairEvent * CollisionPair) :
  x ∈ foldl (fun u e2 =>
               match pairEvent cl e2.2 with
               | Some OnNewCollision => (OnNewCollision, e2.2) :: u
               | Some OnContactGone => (OnContactGone, e2.2) :: u
               | None => u
               end) acc l
  <-> x ∈ acc \/ exists e, e ∈ l /\ x.2 = e.2 /\ pairEvent cl e.2 = Some x.1.
Proof.
  revert acc. induction l as [|e l IH]; intros acc; cbn [foldl].
  - split; [auto | intros [H | (e & H & _)]; [exact H | inversion H] ].
  - rewrite IH. split.
    + intros [H | (e' & Hin & Hx)].
      * destruct (pairEvent cl e.2) as [[|]|] eqn:E; [ | | now left];
          (apply elem_of_cons in H as [-> | H]; [ | now left]);
          right; exists e; (split; [left | split; [reflexivity | exact E] ]).
      * right. exists e'. split; [now right | exact Hx].
    + intros [H | (e' & Hin & Hx2 & Hx1)].
      * left. destruct (pairEvent cl e.2) as [[|]|]; [right | right | ]; exact H.
      * apply elem_of_cons in Hin as [-> | Hin].
        -- left. rewrite Hx1. destruct x as [ev q]. cbn in Hx2, Hx1 |- *.
           subst q. destruct ev; left.
        -- right. exists e'. auto.
Qed.

Lemma fired_outer (cl : CollisionList)
    (l : list (option N * gmap (option N) CollisionPair))
    (acc : list (PairEvent * CollisionPair)) (x : PairEvent * CollisionPair) :
  x ∈ foldl (fun u e1 =>
               foldl (fun u e2 =>
                        match pairEvent cl e2.2 with
                        | Some OnNewCollision => (OnNewCollision, e2.2) :: u
                        | Some OnContactGone => (OnContactGone, e2.2) :: u
                        | None => u
                        end) u (entriesInOrder e1.2)) acc l
  <-> x ∈ acc
      \/ exists e1 e2, e1 ∈ l /\ e2 ∈ entriesInOrder e1.2
                       /\ x.2 = e2.2 /\ pairEvent cl e2.2 = Some x.1.
Proof.
  revert acc. induction l as [|e1 l IH]; intros acc; cbn [foldl].
  - split; [auto | intros [H | (e1 & e2 & H & _)]; [exact H | inversion H] ].
  - rewrite IH, fired_inner. split.
    + intros [[H | (e2 & Hin & Hx)] | (e1' & e2 & Hin1 & Hin2 & Hx)].
      * now left.
      * right. exists e1, e2. split; [left | split; assumption].
      * right. exists e1', e2. split; [now right | split; assumption].
    + intros [H | (e1' & e2 & Hin1 & Hin2 & Hx)].
      * left. now left.
      * apply elem_of_cons in Hin1 as [-> | Hin1].
        -- left. right. exists e2. split; assumption.
        -- right. exists e1', e2. split; [assumption | split; assumption].
Qed.

(** Which callbacks one pass fires. *)
Lemma fired_iff (cl : CollisionList) (ev : PairEvent) (p : CollisionPair) :
  (ev, p) ∈ fired cl
  <-> (exists k1 k2, lookupPair k1 k2 cl = Some p)
      /\ lastActiveIteration p
         = Some (match ev with
                 | OnNewCollision => currentIteration cl
                 | OnContactGone => currentIteration cl - 1
                 end)%Z.
Proof.
  unfold fired, callForEachPair. rewrite fired_outer. cbn [fst snd].
  assert (Hev : pairEvent cl p = Some ev
                <-> lastActiveIteration p
                    = Some (match ev with
                            | OnNewCollision => currentIteration cl
                            | OnContactGone => currentIteration cl - 1
                            end)%Z).
  { unfold pairEvent. destruct (lastActiveIteration p) as [last|]; [ | split; discriminate].
    destruct (Z.eqb_spec (currentIteration cl - last) 0) as [H0 | H0];
      [ | destruct (Z.eqb_spec (currentIteration cl - last) 1) as [H1 | H1] ];
      destruct ev; split; intros H; try discriminate H;
      try (injection H as H); try (f_equal; lia); try reflexivity; exfalso; lia. }
  split.
  - intros [H | ([k1 l] & [k2 q] & Hin1 & Hin2 & Hq & Hp)]; [inversion H | ].
    cbn in Hin2, Hq, Hp. subst q.
    apply elem_of_entriesInOrder in Hin1. apply elem_of_entriesInOrder in Hin2.
    split; [ | now apply Hev].
    exists k1, k2. unfold lookupPair. rewrite Hin1. exact Hin2.
  - intros [(k1 & k2 & Hl) Hlast]. right.
    unfold lookupPair in Hl.
    destruct (pairs cl !! k1) as [l|] eqn:E1; [ | discriminate Hl]. cbn in Hl.
    exists (k1, l), (k2, p). cbn.
    split; [now apply elem_of_entriesInOrder | ].
    split; [now apply elem_of_entriesInOrder | ].
    split; [reflexivity | now apply Hev].
Qed.

(** X8: one call of [callForEachPair] fires [onNewCollision] for exactly
    the stored pairs whose last active iteration is the current one and
    [onContactGone] for exactly those whose last active iteration is the
    one before; no other stored pair receives a callback. *)
Theorem callForEachPair_fires (cl : CollisionList) (ev : PairEvent) (p : CollisionPair) :
  (ev, p) ∈ fired cl
  <-> (exists k1 k2, lookupPair k1 k2 cl = Some p)
      /\ lastActiveIteration p
         = Some (match ev with
                 | OnNewCollision => currentIteration cl
                 | OnContactGone => currentIteration cl - 1
                 end)%Z.
Proof. apply fired_iff. Qed.

End CollisionsProps.

(** ** The world: construction and the object tables *)

Module RegistryProps.
Open Scope Q_scope.
Import JS Objects World NumFacts.

(** X10: the constructor replaces a missing or zero [dt] by 0.06, accepts
    every positive [dt] as it is, and fails on a negative one; a new world
    is stopped, empty, at iteration 1 and time 0. *)
Theorem PulleyWorld_new_dt (d : Q) (floor ceiling : Q) :
  (exists w, PulleyWorld_new None floor ceiling = Return w /\ dt (config w) = 6 # 100)
  /\ (d == 0 ->
      exists w, PulleyWorld_new (Some d) floor ceiling = Return w
                /\ dt (config w) = 6 # 100)
  /\ (0 < d ->
      exists w, PulleyWorld_new (Some d) floor ceiling = Return w
                /\ dt (config w) = d
                /\ running w = false /\ lastStepTime w = None
                /\ objects w = ∅ /\ movables w = ∅
                /\ currentIteration w = 1%Z /\ totalTime w = 0
                /\ lastObjectId w = 0%N)
  /\ (d < 0 ->
      PulleyWorld_new (Some d) floor ceiling
      = Throw (AssertionError "config.dt is invalid")).
Proof.
  unfold PulleyWorld_new.
  split; [ | split; [ | split ] ].
  - eexists. split; reflexivity.
  - intros Hd. apply Qeq_bool_iff in Hd. cbn [Num.or_default]. rewrite Hd.
    eexists. split; reflexivity.
  - intros Hd. cbn [Num.or_default].
    assert (E : Qeq_bool d 0 = false) by (apply Qeq_bool_false; lra).
    rewrite E. apply gtb_gt in Hd. rewrite Hd.
    eexists. cbn. repeat split; reflexivity.
  - intros Hd. cbn [Num.or_default].
    assert (E : Qeq_bool d 0 = false) by (apply Qeq_bool_false; lra).
    rewrite E.
    assert (E' : Num.gtb d 0 = false) by (apply gtb_le; lra).
    rewrite E'. reflexivity.
Qed.

Lemma PulleyWorld_new_dt_witness :
  PulleyWorld_new (Some (- (1 # 100))) 0 5
  = Throw (AssertionError "config.dt is invalid").
Proof.
  apply (proj2 (proj2 (proj2 (PulleyWorld_new_dt (- (1 # 100)) 0 5)))).
  reflexivity.
Defined.

(** X11: adding an object under a free id and removing it again restores
    both object tables; removing an object whose id is not registered
    changes neither. *)
Theorem addObject_removeObject (o : WorldObject) (w : PulleyWorld) :
  (objects w !! idFor o w = None ->
   movables w !! idFor o w = None ->
   let r := addObject o w in
   r.1 = Return tt
   /\ objects r.2.1 !! idFor o w = Some r.2.2
   /\ objects (removeObject r.2.2 r.2.1) = objects w
   /\ movables (removeObject r.2.2 r.2.1) = movables w)
  /\ (forall id, objectId o = Some id ->
        objects w !! id = None -> movables w !! id = None ->
        objects (removeObject o w) = objects w
        /\ movables (removeObject o w) = movables w).
Proof.
  split.
  - intros Hobj Hmov r. subst r.
    pose proof (RegistryFacts.addObject_outcome o w) as Hout. cbn zeta in Hout.
    rewrite Hobj in Hout. destruct Hout as (Hret & Ho & Hm).
    pose proof (RegistryFacts.addObject_objectId o w) as Hid.
    assert (Hclass : canMove (addObject o w).2.2 = canMove o).
    { unfold addObject. destruct (hasId o); cbn;
        match goal with |- context [assert ?c ?m] => destruct (assert c m) end;
        reflexivity. }
    assert (Htruthy : truthy (isObjectType (addObject o w).2.2 ObjectType.Movable)
                      = canMove o).
    { rewrite <- Hclass. unfold isObjectType, getObjectType, canMove.
      destruct (class _); reflexivity. }
    split; [exact Hret | split ].
    { rewrite Ho. apply lookup_insert_eq. }
    unfold removeObject. rewrite Hid, Htruthy.
    destruct (canMove o); cbn [objects movables set_objects set_movables];
      rewrite Ho, ?Hm; split; try reflexivity; now apply delete_insert_id.
  - intros id Hid Hobj Hmov. unfold removeObject. rewrite Hid.
    destruct (truthy _); cbn [objects movables set_objects set_movables];
      split; try reflexivity; now apply delete_id.
Qed.

Lemma addObject_removeObject_witness :
  objects (removeObject (addObject movableDisk emptyWorld).2.2
             (addObject movableDisk emptyWorld).2.1) = objects emptyWorld.
Proof.
  refine (proj1 (proj2 (proj2 (proj1 (addObject_removeObject movableDisk emptyWorld)
                                 _ _)))); reflexivity.
Defined.

Lemma addObject_canMove (o : WorldObject) (w : PulleyWorld) :
  canMove (addObject o w).2.2 = canMove o.
Proof.
  unfold addObject. destruct (hasId o); cbn;
    match goal with |- context [assert ?c ?m] => destruct (assert c m) end;
    reflexivity.
Qed.

Lemma truthy_Movable (o : WorldObject) :
  truthy (isObjectType o ObjectType.Movable) = canMove o.
Proof. unfold isObjectType, getObjectType, canMove. destruct (class o); reflexivity. Qed.

(** X12: the object tables stay in step.  A new world is well formed
    ([movables] is exactly the movable part of [objects], every object sits
    under its own id); [addObject] keeps this, whether it succeeds or fails;
    [removeObject] keeps it when it is given the registered object (or one
    of the same kind, or an object that is not registered). *)
Theorem object_tables_in_step (o : WorldObject) (w : PulleyWorld) :
  (forall d floor ceiling w0,
      PulleyWorld_new d floor ceiling = Return w0 -> wellFormed w0)
  /\ (wellFormed w -> wellFormed (addObject o w).2.1)
  /\ (wellFormed w -> removable o w -> wellFormed (removeObject o w)).
Proof.
  split; [ | split ].
  - intros d floor ceiling w0. unfold PulleyWorld_new.
    destruct (assert _ _); cbn; [ | discriminate].
    intros E. injection E as <-. split.
    + intros id. cbn. now rewrite !lookup_empty.
    + intros id o'. cbn. rewrite lookup_empty. discriminate.
  - intros [Hsync Hkey].
    pose proof (RegistryFacts.addObject_outcome o w) as Hout. cbn zeta in Hout.
    pose proof (RegistryFacts.addObject_objectId o w) as Hid.
    pose proof (addObject_canMove o w) as Hmove.
    set (id := idFor o w) in *.
    destruct (objects w !! id) as [x|] eqn:E.
    + destruct (RegistryFacts.addObject_throw_frame o w _ Hout) as [Ho Hm].
      split.
      * intros id'. rewrite Ho, Hm. apply Hsync.
      * intros id' o'. rewrite Ho. apply Hkey.
    + destruct Hout as (_ & Ho & Hm). split.
      * intros id'. rewrite Ho, Hm.
        destruct (decide (id' = id)) as [-> | Hne].
        -- rewrite lookup_insert_eq. cbn. rewrite Hmove.
           destruct (canMove o); [now rewrite lookup_insert_eq | ].
           rewrite Hsync, E. reflexivity.
        -- rewrite lookup_insert_ne by congruence.
           destruct (canMove o); [rewrite lookup_insert_ne by congruence | ];
             apply Hsync.
      * intros id' o'. rewrite Ho.
        destruct (decide (id' = id)) as [-> | Hne].
        -- rewrite lookup_insert_eq. intros H. injection H as <-. exact Hid.
        -- rewrite lookup_insert_ne by congruence. apply Hkey.
  - intros [Hsync Hkey] Hrem. unfold removeObject.
    destruct (objectId o) as [id|] eqn:Hid; [ | split; assumption].
    rewrite truthy_Movable.
    assert (Hgone : canMove o = false ->
                    objects w !! id ≫= (fun o => if canMove o then Some o else None)
                    = None).
    { intros Hstill. destruct (objects w !! id) as [o'|] eqn:E; [ | reflexivity].
      cbn. rewrite (Hrem id o' Hid E), Hstill. reflexivity. }
    split.
    + intros id'.
      destruct (canMove o) eqn:Hmove; cbn [objects movables set_objects set_movables];
        destruct (decide (id' = id)) as [-> | Hne].
      * now rewrite !lookup_delete_eq.
      * rewrite !lookup_delete_ne by congruence. apply Hsync.
      * rewrite lookup_delete_eq, Hsync. cbn. now apply Hgone.
      * rewrite lookup_delete_ne by congruence. apply Hsync.
    + intros id' o'.
      destruct (canMove o); cbn [objects movables set_objects set_movables];
        (destruct (decide (id' = id)) as [-> | Hne];
         [rewrite lookup_delete_eq; discriminate
         | rewrite lookup_delete_ne by congruence; apply Hkey]).
Qed.

Lemma object_tables_in_step_witness :
  wellFormed (addObject movableDisk emptyWorld).2.1.
Proof.
  apply (proj1 (proj2 (object_tables_in_step movableDisk emptyWorld))).
  apply (proj1 (object_tables_in_step movableDisk emptyWorld)
           (Some (15 # 1000)) 0 5 emptyWorld).
  reflexivity.
Defined.

End RegistryProps.

(** ** The world: pacing against the wall clock *)

Module SteppingProps.
Open Scope Q_scope.
Import World NumFacts DoubleFacts SteppingFacts.

Section WithCallback.
Context {Plant : Type}.
Variable stepIntegrate : Q -> Plant -> Plant.

#[local] Abbreviation _step := (World._step stepIntegrate).
#[local] Abbreviation steps := (World.steps stepIntegrate).
#[local] Abbreviation advanceTime := (World.advanceTime stepIntegrate).

Lemma steps_plant n (s : PulleyWorld * Plant) :
  (steps n s).2 = Nat.iter n (stepIntegrate (dt (config s.1))) s.2.
Proof.
  induction n as [|n IH]; [reflexivity | ].
  unfold World.steps in *. rewrite !Nat.iter_succ.
  pose proof (steps_config stepIntegrate n s) as Hc. unfold World.steps in Hc.
  destruct (Nat.iter n _ s) as [w' p'] eqn:En. cbn [fst snd] in *.
  rewrite <- IH, <- Hc. reflexivity.
Qed.

(** A step touches the clock fields and the callback's state only. *)
Lemma steps_frame n (s : PulleyWorld * Plant) :
  objects (steps n s).1 = objects s.1
  /\ movables (steps n s).1 = movables s.1
  /\ lastObjectId (steps n s).1 = lastObjectId s.1
  /\ collisions (steps n s).1 = collisions s.1.
Proof.
  induction n as [|n IH]; [repeat split | ].
  unfold World.steps in *. rewrite Nat.iter_succ.
  destruct (Nat.iter n _ s) as [w' p'] eqn:En. exact IH.
Qed.

(** X13: the accounting of a catch-up.  On a running world with a
    non-negative elapsed time [e] of at most [2^52] ticks, [advanceTime]
    returns after [n] steps: the iteration counter has grown by [n], the
    callback has been applied [n] times with [config.dt], the world keeps
    running with its configuration and its objects, and [n] is at most
    [2 * e / dt]; the [n] ticks and the remainder behind the returned
    ratio add up to [e] but for the [n] rounding errors. *)
Theorem advanceTime_accounting (w : PulleyWorld) (plant : Plant) (now last : Q) :
  0 < dt (config w) ->
  running w = true ->
  lastStepTime w = Some last ->
  let e := Double.div (Double.sub now last) 1000 in
  0 <= e ->
  e <= Double.maxTicks * dt (config w) ->
  exists (n : nat) (rem : Q) (w' : PulleyWorld),
    (forall fuel, (n <= fuel)%nat ->
       advanceTime fuel now (w, plant)
       = Some (Some (Double.div rem (dt (config w))),
               (w', Nat.iter n (stepIntegrate (dt (config w))) plant)))
    /\ currentIteration w' = (currentIteration w + Z.of_nat n)%Z
    /\ running w' = true
    /\ config w' = config w
    /\ objects w' = objects w
    /\ movables w' = movables w
    /\ inject_Z (Z.of_nat n) * dt (config w) <= 2 * e
    /\ Qabs (e - (inject_Z (Z.of_nat n) * dt (config w) + rem))
       <= inject_Z (Z.of_nat n) * e * Double.unitRoundoff.
Proof.
  intros Hpos Hrun Hlast e He Hmax.
  destruct (advanceTime_catch_up stepIntegrate w plant now last Hpos Hrun Hlast He Hmax)
    as (n & rem & Hret & Hrem & _ & _ & _ & Hacc).
  destruct (steps_counters stepIntegrate n (w, plant)) as (Hi & _ & Hr).
  destruct (steps_frame n (w, plant)) as (Ho & Hm & _).
  pose proof (steps_config stepIntegrate n (w, plant)) as Hc.
  pose proof (steps_plant n (w, plant)) as Hp.
  cbn [fst snd] in *.
  exists n, rem, (steps n (w, plant)).1.
  split; [ | split; [exact Hi | split; [congruence | split; [exact Hc | split;
    [exact Ho | split; [exact Hm | split; [ | exact Hacc] ] ] ] ] ] ].
  - intros fuel Hfuel. rewrite (Hret fuel Hfuel), <- Hp.
    destruct (steps n (w, plant)); reflexivity.
  - pose proof (Z_of_nat_nonneg n) as Hn0.
    apply Qabs_Qle_condition in Hacc.
    unfold Double.unitRoundoff, Double.maxTicks in *.
    fold e in Hacc. clearbody e.
    set (N := inject_Z (Z.of_nat n)) in *. clearbody N.
    set (c := dt (config w)) in *. clearbody c. nra.
Qed.


(** X16: starting.  [startLoop] on a stopped world sets it running with
    the anchor at the clock reading, so that an [advanceTime] at that same
    reading takes no step and returns 0; [startLoop] on a running world
    changes nothing (the anchor is not moved); [stopLoop] keeps the anchor;
    and [startStopLoop] always flips the run state. *)
Theorem startLoop_anchors (w : PulleyWorld) (plant : Plant) (now now' : Q) :
  (running w = false ->
   running (startLoop now w) = true
   /\ lastStepTime (startLoop now w) = Some now
   /\ (0 < dt (config w) ->
       forall fuel, exists r,
         advanceTime fuel now (startLoop now w, plant)
         = Some (Some r, (startLoop now w, plant)) /\ r == 0))
  /\ (running w = true -> startLoop now' w = w)
  /\ running (stopLoop w) = false
  /\ lastStepTime (stopLoop w) = lastStepTime w
  /\ running (startStopLoop now w) = negb (running w).
Proof.
  split; [ | split; [ | split; [ | split ] ] ].
  - intros Hstop. unfold startLoop. rewrite Hstop. cbn [set_running running lastStepTime].
    split; [reflexivity | split; [reflexivity | ] ].
    intros Hpos fuel.
    assert (Hd : Double.sub now now = 0).
    { unfold Double.sub. apply round_of_zero. ring. }
    assert (He : Double.div (Double.sub now now) 1000 = 0).
    { rewrite Hd. reflexivity. }
    exists (Double.div 0 (dt (config w))).
    unfold World.advanceTime, getDtSinceLastStep, isRunning.
    cbn [fst set_running running lastStepTime negb fmap option_fmap option_map].
    rewrite He.
    rewrite advanceTime_loop_exit.
    + split; [reflexivity | ]. unfold Double.div.
      rewrite (round_of_zero (0 / dt (config w))); [reflexivity | ].
      field. lra.
    + cbn [fst set_running config]. lra.
  - intros Hrun. unfold startLoop. now rewrite Hrun.
  - unfold stopLoop. destruct (running w) eqn:E; cbn; [reflexivity | exact E].
  - unfold stopLoop. destruct (running w); reflexivity.
  - unfold startStopLoop, startLoop, stopLoop.
    destruct (running w) eqn:E; cbn; rewrite ?E; reflexivity.
Qed.

End WithCallback.


Lemma startLoop_anchors_witness :
  lastStepTime (startLoop 7 emptyWorld) = Some 7.
Proof.
  refine (proj1 (proj2 (proj1 (startLoop_anchors (fun _ (p : unit) => p)
                                 emptyWorld tt 7 0) _))).
  reflexivity.
Defined.

Lemma advanceTime_accounting_witness :
  exists (n : nat) (w' : PulleyWorld),
    currentIteration w' = (currentIteration world15 + Z.of_nat n)%Z
    /\ inject_Z (Z.of_nat n) * dt (config world15)
       <= 2 * Double.div (Double.sub 40 0) 1000.
Proof.
  destruct (advanceTime_accounting (fun _ (p : unit) => p) world15 tt 40 0)
    as (n & rem & w' & _ & Hi & _ & _ & _ & _ & Hn & _).
  - reflexivity.
  - reflexivity.
  - reflexivity.
  - vm_compute. discriminate.
  - vm_compute. discriminate.
  - exists n, w'. split; assumption.
Defined.

End SteppingProps.

(** ** Point queries *)

Module QueryProps.
Open Scope Q_scope.
Import Objects World QueryFacts.

(** What a recording callback has collected. *)
Lemma visited_iff (h : N * WorldObject -> bool) (l : list (N * WorldObject))
    (acc : list WorldObject) (o : WorldObject) :
  o ∈ foldl (fun u kv => if h kv then kv.2 :: u else u) acc l
  <-> o ∈ acc \/ exists kv, kv ∈ l /\ h kv = true /\ o = kv.2.
Proof.
  revert acc. induction l as [|kv l IH]; intros acc; cbn [foldl].
  - split; [auto | intros [H | (kv & H & _)]; [exact H | inversion H] ].
  - rewrite IH. split.
    + intros [H | (kv' & Hin & Hx)].
      * destruct (h kv) eqn:E; [ | now left].
        apply elem_of_cons in H as [-> | H]; [ | now left].
        right. exists kv. split; [left | split; [exact E | reflexivity] ].
      * right. exists kv'. split; [now right | exact Hx].
    + intros [H | (kv' & Hin & Hh & Ho)].
      * left. destruct (h kv); [right | ]; exact H.
      * apply elem_of_cons in Hin as [-> | Hin].
        -- left. rewrite Hh, Ho. left.
        -- right. exists kv'. auto.
Qed.

(** X17: [foreachObjectAtPoint] reports every match and nothing else.
    When the positions of the registered objects are vectors of the
    caller's store, the callback is called on an object exactly when the
    object is registered and contains the query point; in an empty world
    it is never called. *)
Theorem foreachObjectAtPoint_reports (w : PulleyWorld) (_point : loc)
    (st : list Vec2.t) (o : WorldObject) :
  allocated st _point ->
  (forall id o', objects w !! id = Some o' -> allocated st (position o')) ->
  let visited := (foreachObjectAtPoint w _point (fun o u => o :: u) (st, [])).2 in
  (o ∈ visited
   <-> exists id, objects w !! id = Some o /\ hitAt st (st !!! _point) o = true)
  /\ (objects w = ∅ -> visited = []).
Proof.
  intros Hp Hpos visited.
  assert (E : visited
              = foldl (fun u kv => if hitAt st (st !!! _point) kv.2
                                   then kv.2 :: u else u) [] (objectsInOrder w)).
  { subst visited. unfold foreachObjectAtPoint, alloc.
    destruct (foldl_visit_frame (fun o u => o :: u) st _point (objectsInOrder w) Hp
                Vec2.create []) as [v' ->].
    cbn [snd]. apply (foldl_hits (fun o u => o :: u)).
    intros [k o'] Hin. cbn. apply (Hpos k o').
    unfold objectsInOrder in Hin. rewrite merge_sort_Permutation in Hin.
    now apply elem_of_map_to_list in Hin. }
  split.
  - rewrite E, (visited_iff (fun kv => hitAt st (st !!! _point) kv.2)).
    split.
    + intros [H | ([k o'] & Hin & Hh & ->)]; [inversion H | ].
      exists k. split; [ | exact Hh].
      unfold objectsInOrder in Hin. rewrite merge_sort_Permutation in Hin.
      now apply elem_of_map_to_list in Hin.
    + intros (id & Hin & Hh). right. exists (id, o).
      split; [ | split; [exact Hh | reflexivity] ].
      unfold objectsInOrder. rewrite merge_sort_Permutation.
      now apply elem_of_map_to_list.
  - intros Hempty. rewrite E. unfold objectsInOrder. rewrite Hempty.
    rewrite map_to_list_empty. reflexivity.
Qed.

Lemma foreachObjectAtPoint_reports_witness :
  movableDisk ∈ (foreachObjectAtPoint worldWithDisk 0%nat (fun o u => o :: u)
                   (store2, [])).2.
Proof.
  assert (H0 : allocated store2 0%nat) by (unfold allocated; cbn; lia).
  assert (Hpos : forall id o', objects worldWithDisk !! id = Some o' ->
                               allocated store2 (position o')).
  { intros id o' H.
    assert (Hobj : objects worldWithDisk = {[1%N := movableDisk]}) by reflexivity.
    rewrite Hobj in H. apply lookup_singleton_Some in H as [_ <-].
    unfold allocated. cbn. lia. }
  apply (proj1 (foreachObjectAtPoint_reports worldWithDisk 0%nat store2 movableDisk
                  H0 Hpos)).
  exists 1%N. split; vm_compute; reflexivity.
Defined.

End QueryProps.

(** ** The pulley plant: actuators, volume, range and geometry *)

Module PulleyProps.
Open Scope Q_scope.
Import Pulley NumFacts PulleyFacts.

(** X19: [setControllerValue] maps the control signal to the actuators by
    sign, with a dead zone of 1e-7 around zero; it never leaves pump and
    valve on together, touches nothing but the two flags (so the
    controller's measurement is unaffected), and a second call overrides
    the first. *)
Theorem setControllerValue_actuators (u u' : Q) (p : Pulley) :
  let p' := pulley_setControllerValue u p in
  let pump := isPumpOn (physics p') in
  let valve := isValveOpen (physics p') in
  pump && valve = false
  /\ (1 # 10000000 < u -> pump = false /\ valve = true)
  /\ (u < - (1 # 10000000) -> pump = true /\ valve = false)
  /\ (- (1 # 10000000) <= u <= 1 # 10000000 -> pump = false /\ valve = false)
  /\ set_physics (set_actuators (isPumpOn (physics p)) (isValveOpen (physics p))
                    (physics p')) p' = p
  /\ pulley_getControllerValue p' = pulley_getControllerValue p
  /\ pulley_setControllerValue u (pulley_setControllerValue u' p) = p'.
Proof.
  intros p' pump valve. subst p' pump valve.
  unfold pulley_setControllerValue.
  destruct (gtb_spec u (1 # 10000000)) as [[-> H1] | [-> H1]].
  - cbn. repeat split; try reflexivity; intros; try lra.
    + destruct p as [? ? ? ? ? ? ? ? ? [] ? ?]; reflexivity.
    + destruct (Num.gtb u' _); [ | destruct (Num.ltb u' _)]; reflexivity.
  - destruct (ltb_spec u (- (1 # 10000000))) as [[-> H2] | [-> H2]].
    + cbn. repeat split; try reflexivity; intros; try lra.
      * destruct p as [? ? ? ? ? ? ? ? ? [] ? ?]; reflexivity.
      * destruct (Num.gtb u' _); [ | destruct (Num.ltb u' _)]; reflexivity.
    + cbn. repeat split; try reflexivity; intros; try lra.
      * destruct p as [? ? ? ? ? ? ? ? ? [] ? ?]; reflexivity.
      * destruct (Num.gtb u' _); [ | destruct (Num.ltb u' _)]; reflexivity.
Qed.

Lemma setControllerValue_actuators_witness :
  isPumpOn (physics (pulley_setControllerValue 1 pulley5)) = false
  /\ isValveOpen (physics (pulley_setControllerValue 1 pulley5)) = true.
Proof.
  apply (proj1 (proj2 (setControllerValue_actuators 1 0 pulley5))).
  reflexivity.
Defined.

Section WithPow.
Variable sphereRadius : Q -> Q.

(** X20: the ballonet never holds a negative volume after a step with the
    valve open, whatever it held before; with the valve closed a
    non-negative volume stays non-negative (for a non-negative tick and
    pump flow): it is unchanged with the pump off and grows by
    [ballonetPumpInFlow * dt] with the pump on. *)
Theorem ballonetVolume_nonneg (floor dt : Q) (p : Pulley) :
  massesDiffer dt p ->
  exists p',
    stepIntegrate sphereRadius floor dt p = Some p'
    /\ (isValveOpen (physics p) = true -> 0 <= ballonetVolume (physics p'))
    /\ (isValveOpen (physics p) = false -> isPumpOn (physics p) = false ->
        ballonetVolume (physics p') = ballonetVolume (physics p))
    /\ (isValveOpen (physics p) = false -> isPumpOn (physics p) = true ->
        ballonetVolume (physics p')
        = ballonetVolume (physics p) + ballonetPumpInFlow p * dt)
    /\ (0 <= dt -> 0 <= ballonetPumpInFlow p -> 0 <= ballonetVolume (physics p) ->
        0 <= ballonetVolume (physics p')).
Proof.
  intros Hm.
  destruct (stepIntegrate_physics sphereRadius floor dt p Hm)
    as (p' & E & _ & _ & _ & Hv).
  exists p'. split; [exact E | ].
  rewrite Hv. unfold massAfterActuators. cbn [fst].
  destruct (isValveOpen (physics p)), (isPumpOn (physics p));
    repeat split; intros; try discriminate; try reflexivity;
    try apply Q.le_max_l; try assumption; nra.
Qed.

(** X22: between the floor tests the position stays on the string.  When
    the position before the collision tests lies within the floor distance
    on both sides, the step leaves [payloadPosition] in
    [0, freeStringLength]; a position that would be negative is set to 0
    with velocity 0 (the right side has reached the wheel); a position
    inside [0, freeStringLength] and its velocity pass through
    unchanged. *)
Theorem stepIntegrate_in_range (floor dt : Q) (p : Pulley) :
  massesDiffer dt p ->
  0 <= freeStringLength p ->
  freeStringLength p - (pulleyTop p - floor) <= unclampedPosition dt p ->
  unclampedPosition dt p <= pulleyTop p - floor ->
  exists p',
    stepIntegrate sphereRadius floor dt p = Some p'
    /\ 0 <= payloadPosition (physics p') <= freeStringLength p
    /\ (unclampedPosition dt p < 0 ->
        payloadPosition (physics p') = 0 /\ payloadVelocity (physics p') = 0)
    /\ (0 <= unclampedPosition dt p <= freeStringLength p ->
        payloadPosition (physics p') = unclampedPosition dt p
        /\ payloadVelocity (physics p') = unclampedVelocity dt p).
Proof.
  intros Hm Hfsl Hlo Hhi.
  destruct (stepIntegrate_physics sphereRadius floor dt p Hm) as (p' & E & Hr & _).
  exists p'. split; [exact E | ].
  set (pos := unclampedPosition dt p) in *.
  set (vel := unclampedVelocity dt p) in *. clearbody pos vel.
  unfold resolveCollisions in Hr.
  destruct (gtb_spec pos (pulleyTop p - floor)) as [[H1 H1'] | [H1 H1']];
    [lra | rewrite H1 in Hr].
  destruct (gtb_spec (freeStringLength p - pos) (pulleyTop p - floor))
    as [[H2 H2'] | [H2 H2']]; [lra | rewrite H2 in Hr].
  destruct (ltb_spec pos 0) as [[H3 H3'] | [H3 H3']]; rewrite H3 in Hr.
  { injection Hr as -> ->. repeat split; intros; try reflexivity; lra. }
  destruct (ltb_spec (freeStringLength p - pos) 0) as [[H4 H4'] | [H4 H4']];
    rewrite H4 in Hr.
  { injection Hr as -> ->. repeat split; intros; try reflexivity; lra. }
  injection Hr as -> ->. repeat split; intros; try reflexivity; lra.
Qed.

(** X23: the drawing of a tick follows the position before the collision
    tests, not the position the physics is left with: the right string
    hangs [unclampedPosition] below the pulley, the two string ends add up
    to the free string length, the payload box and the counter weight hang
    one box height below their strings, and the components are placed from
    exactly these numbers. *)
Theorem geometry_follows_unclamped (floor dt : Q) (p : Pulley) :
  massesDiffer dt p ->
  exists p',
    stepIntegrate sphereRadius floor dt p = Some p'
    /\ let dg := dependentGeometry p' in
       rightStringBottomY dg == - unclampedPosition dt p
       /\ leftStringBottomY dg == unclampedPosition dt p - freeStringLength p
       /\ leftStringBottomY dg + rightStringBottomY dg == - freeStringLength p
       /\ counterWeightY dg == pulleyTop p - unclampedPosition dt p
                               - snd (counterWeightSize p)
       /\ leftPayloadY dg == pulleyBottomLeft dg - snd (payloadSize p)
       /\ ballonetRadius dg = sphereRadius (ballonetVolume (physics p'))
       /\ components p' = updatePulleyComponents dg.
Proof.
  intros Hm. pose proof Hm as Hm'. unfold massesDiffer in Hm.
  unfold stepIntegrate, unclampedPosition, unclampedVelocity, accelerationOf.
  destruct (massAfterActuators dt p) as [volume mass] eqn:E.
  cbn [fst snd] in *.
  assert (Hden : Qeq_bool (Qabs (mass - counterWeightMass p)) 0 = false).
  { apply Qeq_bool_false. intros H0. apply Qabs_zero in H0. apply Hm. lra. }
  rewrite Hden.
  destruct (resolveCollisions p floor _ _) as [position velocity].
  eexists. split; [reflexivity | ].
  cbn. unfold getHeightForPayloadPosition, pulleyTop. cbn.
  repeat split; try reflexivity; ring.
Qed.

End WithPow.

Lemma pulley5_massesDiffer : massesDiffer (15 # 1000) pulley5.
Proof. vm_compute. discriminate. Qed.

Lemma ballonetVolume_nonneg_witness :
  exists p',
    stepIntegrate noDrawing 0 (15 # 1000) pulley5 = Some p'
    /\ 0 <= ballonetVolume (physics p').
Proof.
  destruct (ballonetVolume_nonneg noDrawing 0 (15 # 1000) pulley5 pulley5_massesDiffer)
    as (p' & E & _ & _ & _ & H).
  exists p'. split; [exact E | ].
  apply H; discriminate.
Defined.

Lemma stepIntegrate_in_range_witness :
  exists p',
    stepIntegrate noDrawing 0 (15 # 1000) pulley5 = Some p'
    /\ 0 <= payloadPosition (physics p') <= freeStringLength pulley5.
Proof.
  destruct (stepIntegrate_in_range noDrawing 0 (15 # 1000) pulley5 pulley5_massesDiffer)
    as (p' & E & H & _).
  - discriminate.
  - vm_compute. discriminate.
  - vm_compute. discriminate.
  - exists p'. split; assumption.
Defined.

Lemma geometry_follows_unclamped_witness :
  exists p',
    stepIntegrate noDrawing 0 (15 # 1000) pulley5 = Some p'
    /\ rightStringBottomY (dependentGeometry p') == - unclampedPosition (15 # 1000) pulley5.
Proof.
  destruct (geometry_follows_unclamped noDrawing 0 (15 # 1000) pulley5
              pulley5_massesDiffer) as (p' & E & H & _).
  exists p'. split; assumption.
Defined.

End PulleyProps.

(** ** The control loop *)

Module LoopProps.
Open Scope Q_scope.
Import PID NumFacts.

(** The controller's state after [n] updates in a row against the pulley
    (no physics step in between). *)
Lemma update_reading (c : PIDController) (p : Pulley.Pulley) :
  getControllerValue (update c p).2.2 = getControllerValue p
  /\ setPoint (update c p).2.1 = setPoint c
  /\ isOn (update c p).2.1 = isOn c
  /\ kP (update c p).2.1 = kP c /\ kI (update c p).2.1 = kI c
  /\ kD (update c p).2.1 = kD c.
Proof.
  unfold update. destruct (isOn c) eqn:E; cbn [negb fst snd];
    [ | repeat split; assumption].
  cbn [setPoint isOn kP kI kD].
  split; [ | repeat split; reflexivity].
  cbn [getControllerValue setControllerValue Pulley.pulley_plant].
  unfold Pulley.pulley_setControllerValue, Pulley.pulley_getControllerValue.
  destruct (Num.gtb _ _); [reflexivity | ].
  destruct (Num.ltb _ _); reflexivity.
Qed.

(** X25: a purely proportional controller ([kI = kD = 0], empty
    accumulator) that is switched on drives the pulley's actuators by the
    sign of [kP * (setPoint - payloadPosition)]: above the dead zone it
    opens the valve and stops the pump, below it starts the pump and
    closes the valve, inside it switches both off. *)
Theorem proportional_control (c : PIDController) (p : Pulley.Pulley) :
  isOn c = true ->
  kI c == 0 -> kD c == 0 -> Iout (physics c) == 0 ->
  let e := setPoint c - Pulley.payloadPosition (Pulley.physics p) in
  let p' := (update c p).2.2 in
  (exists total, (update c p).1 = Some total /\ total == kP c * e)
  /\ (1 # 10000000 < kP c * e ->
      Pulley.isValveOpen (Pulley.physics p') = true
      /\ Pulley.isPumpOn (Pulley.physics p') = false)
  /\ (kP c * e < - (1 # 10000000) ->
      Pulley.isPumpOn (Pulley.physics p') = true
      /\ Pulley.isValveOpen (Pulley.physics p') = false)
  /\ (- (1 # 10000000) <= kP c * e <= 1 # 10000000 ->
      Pulley.isPumpOn (Pulley.physics p') = false
      /\ Pulley.isValveOpen (Pulley.physics p') = false).
Proof.
  intros Hon HI HD Hacc e p'. subst p'.
  unfold update. rewrite Hon. cbn [negb fst snd].
  cbn [getControllerValue setControllerValue Pulley.pulley_plant].
  unfold Pulley.pulley_getControllerValue. fold e.
  set (total := kP c * e + (Iout (physics c) + kI c * e)
                + kD c * (e - errorValue (physics c))).
  assert (Ht : total == kP c * e).
  { unfold total. rewrite HI, HD, Hacc. ring. }
  clearbody total.
  split; [exists total; split; [reflexivity | exact Ht] | ].
  unfold Pulley.pulley_setControllerValue.
  destruct (gtb_spec total (1 # 10000000)) as [[-> H1] | [-> H1]].
  - cbn. repeat split; intros; try reflexivity; lra.
  - destruct (ltb_spec total (- (1 # 10000000))) as [[-> H2] | [-> H2]];
      cbn; repeat split; intros; try reflexivity; lra.
Qed.

Lemma proportional_control_witness :
  Pulley.isValveOpen
    (Pulley.physics (update (PIDControllerClass 2 true (1 # 10) 0 0) Pulley.pulley5).2.2)
  = true.
Proof.
  refine (proj1 (proj1 (proj2 (proportional_control
            (PIDControllerClass 2 true (1 # 10) 0 0) Pulley.pulley5 _ _ _ _)) _));
    reflexivity.
Defined.

(** X26: the integral term winds up linearly.  While the controller is on
    and the measurement stays the same, [n] updates add [n * kI * error]
    to the accumulator [Iout]; from the second update on the derivative
    term is zero and the output grows by [kI * error] per update. *)
Theorem integral_windup (c : PIDController) (p : Pulley.Pulley) (n : nat) :
  isOn c = true ->
  let e := setPoint c - Pulley.payloadPosition (Pulley.physics p) in
  let s := Nat.iter n (fun s => (update s.1 s.2).2) (c, p) in
  Iout (physics s.1) == Iout (physics c) + inject_Z (Z.of_nat n) * (kI c * e)
  /\ Pulley.payloadPosition (Pulley.physics s.2)
     = Pulley.payloadPosition (Pulley.physics p)
  /\ ((1 <= n)%nat -> errorValue (physics s.1) = e /\ Pout (physics s.1) = kP c * e)
  /\ ((2 <= n)%nat ->
      Dout (physics s.1) == 0
      /\ u (physics s.1) == kP c * e + Iout (physics s.1)).
Proof.
  intros Hon e.
  assert (Hinv : forall k,
             let s := Nat.iter k (fun s => (update s.1 s.2).2) (c, p) in
             isOn s.1 = true /\ setPoint s.1 = setPoint c
             /\ kP s.1 = kP c /\ kI s.1 = kI c /\ kD s.1 = kD c
             /\ getControllerValue s.2 = getControllerValue p).
  { induction k as [|k IH]; [cbn; repeat split; assumption | ].
    cbn zeta in *. rewrite Nat.iter_succ.
    destruct (Nat.iter k _ (c, p)) as [ck pk]. cbn [fst snd] in *.
    destruct IH as (H1 & H2 & H3 & H4 & H5 & H6).
    destruct (update_reading ck pk) as (R1 & R2 & R3 & R4 & R5 & R6).
    repeat split; congruence. }
  assert (Hstep : forall k,
             let s := Nat.iter k (fun s => (update s.1 s.2).2) (c, p) in
             let s' := Nat.iter (S k) (fun s => (update s.1 s.2).2) (c, p) in
             errorValue (physics s'.1) = e
             /\ Pout (physics s'.1) = kP c * e
             /\ Iout (physics s'.1) = Iout (physics s.1) + kI c * e
             /\ Dout (physics s'.1) = kD c * (e - errorValue (physics s.1))
             /\ u (physics s'.1)
                = kP c * e + (Iout (physics s.1) + kI c * e)
                  + kD c * (e - errorValue (physics s.1))).
  { intros k. cbn zeta. rewrite Nat.iter_succ.
    specialize (Hinv k). cbn zeta in Hinv.
    destruct (Nat.iter k _ (c, p)) as [ck pk]. cbn [fst snd] in *.
    destruct Hinv as (H1 & H2 & H3 & H4 & H5 & H6).
    unfold update. rewrite H1. cbn [negb fst snd physics errorValue Pout Iout Dout u].
    rewrite H2, H3, H4, H5, H6.
    repeat split; reflexivity. }
  cbn zeta. split; [ | split; [ | split ] ].
  - induction n as [|k IH].
    + cbn. unfold inject_Z. ring.
    + destruct (Hstep k) as (_ & _ & HI & _). cbn zeta in HI.
      rewrite HI, IH, Nat2Z.inj_succ. unfold Z.succ. rewrite inject_Z_plus. ring.
  - apply (Hinv n).
  - intros Hn. destruct n as [|k]; [lia | ].
    destruct (Hstep k) as (He & HP & _). split; assumption.
  - intros Hn. destruct n as [|[|k]]; [lia | lia | ].
    destruct (Hstep (S k)) as (_ & _ & HI & HD & Hu). cbn zeta in *.
    destruct (Hstep k) as (He & _).  cbn zeta in He.
    rewrite HD, Hu, HI, He. split; ring.
Qed.

Lemma integral_windup_witness :
  Iout (physics (Nat.iter 3 (fun s => (update s.1 s.2).2)
                   (PIDControllerClass 2 true 0 1 0, Pulley.pulley5)).1)
  == Iout (physics (PIDControllerClass 2 true 0 1 0))
     + inject_Z (Z.of_nat 3)
       * (kI (PIDControllerClass 2 true 0 1 0)
          * (setPoint (PIDControllerClass 2 true 0 1 0)
             - Pulley.payloadPosition (Pulley.physics Pulley.pulley5))).
Proof.
  exact (proj1 (integral_windup (PIDControllerClass 2 true 0 1 0) Pulley.pulley5 3
                  eq_refl)).
Defined.

End LoopProps.

(** ** Creating objects *)

Module CreationProps.
Open Scope Q_scope.
Import JS Objects World NumFacts.

Lemma addObject_object (o : WorldObject) (w : PulleyWorld) :
  (addObject o w).2.2 = set_objectId (Some (idFor o w)) o.
Proof.
  unfold addObject, idFor. destruct (hasId o); cbn;
    match goal with |- context [assert ?c ?m] => destruct (assert c m) end;
    reflexivity.
Qed.

(** X27: in a world where no registered id is above the counter (a new
    world is one), adding an object without an id never fails: the object
    is registered under [lastObjectId + 1], and the world is again of that
    kind; [removeObject] keeps such worlds too.  So a world that is only
    ever given objects without ids never raises "Object was added
    twice". *)
Theorem addObject_fresh_succeeds (o : WorldObject) (w : PulleyWorld) :
  (forall d floor ceiling w0,
      PulleyWorld_new d floor ceiling = Return w0 -> idsBelowCounter w0)
  /\ (idsBelowCounter w -> hasId o = None ->
      (addObject o w).1 = Return tt
      /\ objects (addObject o w).2.1 !! (lastObjectId w + 1)%N
         = Some (set_objectId (Some (lastObjectId w + 1)%N) o)
      /\ idsBelowCounter (addObject o w).2.1)
  /\ (idsBelowCounter w -> idsBelowCounter (removeObject o w)).
Proof.
  split; [ | split ].
  - intros d floor ceiling w0. unfold PulleyWorld_new.
    destruct (assert _ _); cbn; [ | discriminate].
    intros E. injection E as <-. intros id o'. cbn.
    rewrite lookup_empty. discriminate.
  - intros Hinv Hnone.
    pose proof (RegistryFacts.addObject_outcome o w) as Hout. cbn zeta in Hout.
    pose proof (RegistryFacts.addObject_lastObjectId o w) as Hlast.
    pose proof (addObject_object o w) as Hobj.
    unfold idFor in *. rewrite Hnone in *.
    destruct (objects w !! (lastObjectId w + 1)%N) as [x|] eqn:E.
    { apply Hinv in E. lia. }
    destruct Hout as (Hret & Ho & _).
    split; [exact Hret | split ].
    + rewrite Ho, Hobj. apply lookup_insert_eq.
    + intros id o'. rewrite Ho, Hlast.
      destruct (decide (id = (lastObjectId w + 1)%N)) as [-> | Hne].
      * intros _. lia.
      * rewrite lookup_insert_ne by congruence. intros H. apply Hinv in H. lia.
  - intros Hinv id o'. rewrite RegistryFacts.removeObject_lastObjectId.
    unfold removeObject. destruct (objectId o) as [k|]; [ | apply Hinv].
    destruct (truthy _); cbn [objects set_objects set_movables];
      (destruct (decide (id = k)) as [-> | Hne];
       [rewrite lookup_delete_eq; discriminate
       | rewrite lookup_delete_ne by congruence; apply Hinv]).
Qed.

Lemma emptyWorld_idsBelowCounter : idsBelowCounter emptyWorld.
Proof. intros id o. cbn. rewrite lookup_empty. discriminate. Qed.

Lemma addObject_fresh_succeeds_witness :
  (addObject anonymous emptyWorld).1 = Return tt.
Proof.
  apply (proj1 (proj2 (addObject_fresh_succeeds anonymous emptyWorld))).
  - exact emptyWorld_idsBelowCounter.
  - reflexivity.
Defined.

(** The position vector of a new object sits behind the caller's
    vectors. *)
Lemma containsPoint_new_position (o : WorldObject) (st : list Vec2.t)
    (pt : loc) (v : Vec2.t) :
  allocated st pt ->
  position o = length st ->
  (containsPoint o pt (st ++ [v])).1
  = Shapes.containsPoint (shape o) (Vec2.subtract (st !!! pt) v).
Proof.
  intros Hp Hpos. unfold allocated in Hp. unfold containsPoint. cbn [fst].
  rewrite Hpos.
  rewrite (lookup_total_app_l st [v] pt) by exact Hp.
  rewrite (list_lookup_total_middle st [] v (length st) eq_refl).
  apply f_equal.
  apply list_lookup_total_insert_eq. rewrite length_app. cbn. lia.
Qed.

(** X28: what the creation helpers put into the world.  On a world where
    no id is above the counter, [AddBox(x, y, w, h)] returns a registered
    body with the next id that contains every world point of the rectangle
    [x, x + w] by [y, y + h], borders included, and no point left of [x]
    or below [y]; [AddDisk(x, y, r)] returns a registered body with the
    next id that contains the point [(x, y)] it was created at, whatever
    the radius.  The caller's vectors are not touched by the creation. *)
Theorem creation_helpers_cover (x y w h r : Q) (name : string)
    (world : PulleyWorld) (st : list Vec2.t) (pt : loc) :
  idsBelowCounter world ->
  allocated st pt ->
  let px := fst (st !!! pt) in
  let py := snd (st !!! pt) in
  (exists box world' st',
      AddBox x y w h name (world, st) = (Return box, (world', st'))
      /\ objectId box = Some (lastObjectId world + 1)%N
      /\ objects world' !! (lastObjectId world + 1)%N = Some box
      /\ (forall q, allocated st q -> st' !! q = st !! q)
      /\ (x <= px <= x + w -> y <= py <= y + h ->
          (containsPoint box pt st').1 = true)
      /\ (px < x \/ py < y -> (containsPoint box pt st').1 = false))
  /\ (exists disk world' st',
      AddDisk x y r name (world, st) = (Return disk, (world', st'))
      /\ objectId disk = Some (lastObjectId world + 1)%N
      /\ objects world' !! (lastObjectId world + 1)%N = Some disk
      /\ (forall q, allocated st q -> st' !! q = st !! q)
      /\ (px == x -> py == y -> (containsPoint disk pt st').1 = true)).
Proof.
  intros Hinv Hp px py.
  assert (Hadd : forall def, objectId def = None ->
             (addObject def world).1 = Return tt
             /\ (addObject def world).2.2
                = set_objectId (Some (lastObjectId world + 1)%N) def
             /\ objects (addObject def world).2.1 !! (lastObjectId world + 1)%N
                = Some (set_objectId (Some (lastObjectId world + 1)%N) def)).
  { intros def Hdef.
    assert (Hnone : hasId def = None) by (unfold hasId; now rewrite Hdef).
    pose proof (RegistryFacts.addObject_outcome def world) as Hout. cbn zeta in Hout.
    pose proof (addObject_object def world) as Hobj.
    unfold idFor in *. rewrite Hnone in *.
    destruct (objects world !! (lastObjectId world + 1)%N) as [o'|] eqn:E.
    { apply Hinv in E. lia. }
    destruct Hout as (Hret & Ho & _).
    split; [exact Hret | split; [exact Hobj | ] ].
    rewrite Ho, Hobj. apply lookup_insert_eq. }
  split.
  - unfold AddBox, fromValues.
    match goal with |- context [addObject ?d world] =>
      destruct (Hadd d eq_refl) as (Hret & Hobj & Hreg) end.
    rewrite Hret, Hobj. cbn [mbind mret outcome_bind outcome_ret JS.bind].
    eexists. eexists. eexists. split; [reflexivity | ].
    split; [reflexivity | split; [exact Hreg | split ] ].
    + intros q Hq. now apply lookup_app_l.
    + rewrite containsPoint_new_position by (exact Hp || reflexivity).
      cbn [shape set_objectId Shapes.containsPoint].
      unfold Shapes.AABB_containsPoint, Vec2.subtract, Num.geb, Num.leb.
      subst px py. destruct (st !!! pt) as [a b].
      cbn [fst snd Shapes.min Shapes.max]. split.
      * intros Hx Hy. rewrite !andb_true_iff, !Qle_bool_iff. intuition lra.
      * intros Hout. apply not_true_is_false.
        rewrite !andb_true_iff, !Qle_bool_iff. intuition lra.
  - unfold AddDisk, fromValues.
    match goal with |- context [addObject ?d world] =>
      destruct (Hadd d eq_refl) as (Hret & Hobj & Hreg) end.
    rewrite Hret, Hobj. cbn [mbind mret outcome_bind outcome_ret JS.bind].
    eexists. eexists. eexists. split; [reflexivity | ].
    split; [reflexivity | split; [exact Hreg | split ] ].
    + intros q Hq. now apply lookup_app_l.
    + rewrite containsPoint_new_position by (exact Hp || reflexivity).
      cbn [shape set_objectId Shapes.containsPoint].
      unfold Shapes.Disk_containsPoint. cbn [Shapes.center Shapes.radius].
      rewrite ShapesFacts.squaredDistance_Arr.
      subst px py. destruct (st !!! pt) as [a b].
      unfold Vec2.subtract. cbn [fst snd].
      intros Hx Hy. rewrite leb_le. nra.
Qed.

Lemma creation_helpers_cover_witness :
  exists box world' st',
    AddBox 0 0 2 3 "box" (emptyWorld, store2) = (Return box, (world', st'))
    /\ 0 <= fst (store2 !!! 1%nat) <= 0 + 2
    /\ 0 <= snd (store2 !!! 1%nat) <= 0 + 3
    /\ (containsPoint box 1%nat st').1 = true.
Proof.
  assert (H1 : allocated store2 1%nat) by (unfold allocated; cbn; lia).
  destruct (proj1 (creation_helpers_cover 0 0 2 3 1 "box" emptyWorld store2 1%nat
                     emptyWorld_idsBelowCounter H1))
    as (box & world' & st' & E & _ & _ & _ & H & _).
  assert (Hx : 0 <= fst (store2 !!! 1%nat) <= 0 + 2) by (split; discriminate).
  assert (Hy : 0 <= snd (store2 !!! 1%nat) <= 0 + 3) by (split; discriminate).
  exists box, world', st'.
  split; [exact E | split; [exact Hx | split; [exact Hy | exact (H Hx Hy)] ] ].
Defined.

End CreationProps.
